(** * RestServerTransport: request/response correlation over synchronous HTTP

    A shallow embedding of [src/server/rest.ts] (class [RestServerTransport])
    and of the two copies of the argument lookup helper [getParamValue],
    followed by the properties of the correlation engine.

    Modelling conventions.
    - The JS [Map] [_pendingRequests] is an association list in insertion
      order: [send] iterates it in that order and stops at the first match.
    - A pending entry holds the [resolve] callback of a promise.  The promise
      is only ever fulfilled with the entry's own [responseMessages] array
      (by reference), so its state is the boolean [resolved]; the value seen
      by the awaiting call is the array as it is when the call resumes.
    - Every operation returns the new transport state together with the list
      of actions it performed, in program order.
    - The downstream [onmessage] handler is a function giving the messages it
      passes to [send] before it returns or throws; later calls of [send] are
      events of their own.
    - An asynchronous call is cut at its [await]: [handlePostRequest] is the
      part up to the race, [afterRace] the part after it.  Time is abstract:
      the firing of the timer set by a call is an event.
    - The call is given twice.  [handlePostRequest], [step] and [run] are the
      call along the path on which no invocation of the handler throws.
      [handlePostRequest_catching], [advance] and [play] add the exceptions
      of the handler, the [catch] clause of the call, and the set of calls
      suspended at their race; the two agree when the handler does not throw.
    - [start], [startServer], [stopServer] and [close] are not among the
      events: the statements concern a transport that stays open. *)

From Stdlib Require Import Ascii String.
From stdpp Require Import base strings pretty list gmap.

Local Open Scope string_scope.
Local Open Scope Z_scope.
Local Open Scope list_scope.

(** ** Protocol messages *)

Unset Elimination Schemes.
Inductive JSON :=
| JNull
| JBool (b : bool)
| JNumber (n : Z)
| JString (s : string)
| JArray (items : list JSON)
| JObject (fields : list (string * JSON)).
Set Elimination Schemes.

(** [RequestId]: a string or a number.  The transport reads an identifier
    through [String] only, so a number is given by the string that [String]
    returns for it: ["7"] for 7, ["1e+21"] for ten to the power 21. *)
Inductive RequestId :=
| IdString (s : string)
| IdNumber (numeral : string).

(** The four shapes of [JSONRPCMessage]. *)
Inductive JSONRPCMessage :=
| JSONRPCRequest (id : RequestId) (method : string) (params : option JSON)
| JSONRPCNotification (method : string) (params : option JSON)
| JSONRPCResponse (id : RequestId) (result : JSON)
| JSONRPCError (id : RequestId) (error : JSON).

(** ["method" in msg] *)
Definition in_method (msg : JSONRPCMessage) : bool :=
  match msg with
  | JSONRPCRequest _ _ _ | JSONRPCNotification _ _ => true
  | _ => false
  end.

(** ["id" in msg] *)
Definition in_id (msg : JSONRPCMessage) : bool :=
  match msg with
  | JSONRPCNotification _ _ => false
  | _ => true
  end.

(** ["result" in msg] *)
Definition in_result (msg : JSONRPCMessage) : bool :=
  match msg with
  | JSONRPCResponse _ _ => true
  | _ => false
  end.

(** ["error" in msg] *)
Definition in_error (msg : JSONRPCMessage) : bool :=
  match msg with
  | JSONRPCError _ _ => true
  | _ => false
  end.

(** [msg.id] *)
Definition msg_id (msg : JSONRPCMessage) : option RequestId :=
  match msg with
  | JSONRPCRequest i _ _ | JSONRPCResponse i _ | JSONRPCError i _ => Some i
  | JSONRPCNotification _ _ => None
  end.

(** [String(id)]: a string is itself, a number its numeral. *)
Definition String_of_id (i : RequestId) : string :=
  match i with
  | IdString s => s
  | IdNumber numeral => numeral
  end.

(** [String(msg.id)] *)
Definition String_msg_id (msg : JSONRPCMessage) : string :=
  match msg_id msg with
  | Some i => String_of_id i
  | None => "undefined"
  end.

(** The three tests the transport applies to a message. *)
Definition isRequest (msg : JSONRPCMessage) : bool :=
  in_method msg && in_id msg.

Definition isNotification (msg : JSONRPCMessage) : bool :=
  in_method msg && negb (in_id msg).

Definition isResponse (msg : JSONRPCMessage) : bool :=
  in_id msg && (in_result msg || in_error msg).

(** ** Transport state and actions *)

(** An entry of [_pendingRequests].  [resolved] is the state of the promise
    whose [resolve] callback the entry holds: [true] once [resolve] has been
    called with the entry's [responseMessages] array. *)
Record PendingRequest := mkPending {
  resolved : bool;
  responseMessages : list JSONRPCMessage;
  requestIds : list string
}.

(** The fields of the class that the correlation touches. *)
Record RestServerTransport := mkTransport {
  _pendingRequests : list (string * PendingRequest);
  onmessage : option (JSONRPCMessage -> list JSONRPCMessage)
}.

(** What is passed to [res.end]: one message, an array of messages, or the
    error envelope [{jsonrpc, error: {code, message, data?}, id: null}]. *)
Inductive Body :=
| BodyMessage (m : JSONRPCMessage)
| BodyMessages (ms : list JSONRPCMessage)
| BodyError (code : Z) (message : string) (data : option string).

(** The actions an operation performs, logged in program order:
    [res.writeHead], [res.end], a call of the [onmessage] handler, a call of
    [onerror], [_pendingRequests.set], [_pendingRequests.delete], a call of
    the [resolve] callback of a batch, [setTimeout], and a call of [send]. *)
Inductive Action :=
| WriteHead (status : Z) (headers : list (string * string))
| ResEnd (body : option Body)
| OnMessage (m : JSONRPCMessage)
| OnError (e : string)
| PendingSet (batchId : string) (p : PendingRequest)
| PendingDelete (batchId : string)
| Resolve (batchId : string)
| SetTimeout (ms : Z)
| SendCall (m : JSONRPCMessage).

(** [Map.prototype.set]: an existing key keeps its place, a new one goes last. *)
Fixpoint Map_set {V} (k : string) (v : V) (m : list (string * V)) : list (string * V) :=
  match m with
  | [] => [(k, v)]
  | (k', v') :: rest =>
      if bool_decide (k' = k) then (k, v) :: rest else (k', v') :: Map_set k v rest
  end.

(** [Map.prototype.get] *)
Fixpoint Map_get {V} (k : string) (m : list (string * V)) : option V :=
  match m with
  | [] => None
  | (k', v') :: rest => if bool_decide (k' = k) then Some v' else Map_get k rest
  end.

(** [Map.prototype.delete] *)
Fixpoint Map_delete {V} (k : string) (m : list (string * V)) : list (string * V) :=
  match m with
  | [] => []
  | (k', v') :: rest =>
      if bool_decide (k' = k) then Map_delete k rest else (k', v') :: Map_delete k rest
  end.

(** [requestIds.includes(messageId)] *)
Definition includes_id (ids : list string) (messageId : string) : bool :=
  bool_decide (messageId ∈ ids).

(** ** [send] *)

(** The loop of [send] over [_pendingRequests.entries()]. *)
Fixpoint send_scan (messageId : string) (message : JSONRPCMessage)
    (entries : list (string * PendingRequest))
  : list (string * PendingRequest) * list Action :=
  match entries with
  | [] => ([], [])
  | (batchId, pendingRequest) :: rest =>
      if includes_id (requestIds pendingRequest) messageId then
        let msgs := responseMessages pendingRequest ++ [message] in
        if bool_decide (length msgs = length (requestIds pendingRequest)) then
          ((batchId, mkPending true msgs (requestIds pendingRequest)) :: rest,
           [Resolve batchId])
        else
          ((batchId, mkPending (resolved pendingRequest) msgs
                       (requestIds pendingRequest)) :: rest, [])
      else
        let '(rest', acts) := send_scan messageId message rest in
        ((batchId, pendingRequest) :: rest', acts)
  end.

Definition send (message : JSONRPCMessage) (t : RestServerTransport)
  : RestServerTransport * list Action :=
  if negb (in_id message) || negb (in_result message || in_error message) then
    (t, [SendCall message])
  else
    let messageId := String_msg_id message in
    let '(entries, acts) := send_scan messageId message (_pendingRequests t) in
    (mkTransport entries (onmessage t), SendCall message :: acts).

(** The calls of [send] a handler makes before returning. *)
Fixpoint send_all (outs : list JSONRPCMessage) (t : RestServerTransport)
  : RestServerTransport * list Action :=
  match outs with
  | [] => (t, [])
  | m :: outs' =>
      let '(t1, a1) := send m t in
      let '(t2, a2) := send_all outs' t1 in
      (t2, a1 ++ a2)
  end.

(** [this.onmessage?.(message)], when the handler returns. *)
Definition forward (message : JSONRPCMessage) (t : RestServerTransport)
  : RestServerTransport * list Action :=
  match onmessage t with
  | None => (t, [])
  | Some handler =>
      let '(t', acts) := send_all (handler message) t in
      (t', OnMessage message :: acts)
  end.

(** [for (const message of messages) this.onmessage?.(message)], when no
    invocation throws; [forward_all_catching] is the loop with exceptions. *)
Fixpoint forward_all (messages : list JSONRPCMessage) (t : RestServerTransport)
  : RestServerTransport * list Action :=
  match messages with
  | [] => (t, [])
  | m :: rest =>
      let '(t1, a1) := forward m t in
      let '(t2, a2) := forward_all rest t1 in
      (t2, a1 ++ a2)
  end.

(** ** The HTTP call *)

(** What lines 191-210 produce from the request body: an exception (bad
    content type parameters, oversized or unreadable body, invalid JSON, a
    value the message schema rejects), one message, or an array of them. *)
Inductive Decoded :=
| DecodeFailed (error : string)
| DecodedSingle (m : JSONRPCMessage)
| DecodedArray (ms : list JSONRPCMessage).

(** The parts of the HTTP request the transport reads. *)
Record IncomingMessage := mkReq {
  req_method : string;
  header_accept : option string;
  header_content_type : option string;
  req_body : Decoded
}.

(** [s.includes(sub)] *)
Fixpoint includes (s sub : string) : bool :=
  String.prefix sub s ||
  match s with
  | EmptyString => false
  | String _ s' => includes s' sub
  end.

(** A header value in a boolean position: defined and not empty. *)
Definition truthy (h : option string) : bool :=
  match h with
  | Some s => negb (bool_decide (s = ""))
  | None => false
  end.

(** [h.includes(sub)] for a header that may be absent. *)
Definition header_includes (h : option string) (sub : string) : bool :=
  match h with
  | Some s => includes s sub
  | None => false
  end.

(** Lines 156-161: the test on the [Accept] header that leads to 406. *)
Definition not_acceptable (req : IncomingMessage) : bool :=
  truthy (header_accept req)
  && negb (bool_decide (header_accept req = Some "*/*"))
  && negb (header_includes (header_accept req) "application/json").

(** Line 176: the test on the [Content-Type] header that leads to 415. *)
Definition unsupported_media_type (req : IncomingMessage) : bool :=
  negb (truthy (header_content_type req))
  || negb (header_includes (header_content_type req) "application/json").

(** [res.writeHead(status).end(JSON.stringify({jsonrpc, error, id: null}))] *)
Definition error_envelope (status code : Z) (message : string) (data : option string)
  : list Action :=
  [WriteHead status []; ResEnd (Some (BodyError code message data))].

(** The delay passed to [setTimeout]. *)
Definition TIMEOUT_MS : Z := 30000.

(** [messages.filter(isRequest).map(msg => String(msg.id))] *)
Definition requestIds_of (messages : list JSONRPCMessage) : list string :=
  map String_msg_id (filter (fun msg => isRequest msg = true) messages).

(** Lines 203-210: the message list, or the exception thrown on the way. *)
Definition decode (d : Decoded) : string + list JSONRPCMessage :=
  match d with
  | DecodeFailed e => inl e
  | DecodedSingle m => inr [m]
  | DecodedArray ms => inr ms
  end.

(** Lines 212-258: classification of the decoded messages, up to the
    [await] of the race.  [uuid] is what [randomUUID()] returns. *)
Definition handleMessages (messages : list JSONRPCMessage) (uuid : string)
    (t : RestServerTransport) : RestServerTransport * list Action :=
  let hasRequests := existsb isRequest messages in
  let hasOnlyNotifications := forallb isNotification messages in
  if hasOnlyNotifications then
    let '(t', acts) := forward_all messages t in
    (t', WriteHead 202 [] :: ResEnd None :: acts)
  else if hasRequests then
    let requestBatchId := uuid in
    let entry := mkPending false [] (requestIds_of messages) in
    let t1 := mkTransport (Map_set requestBatchId entry (_pendingRequests t))
                (onmessage t) in
    let '(t2, acts) := forward_all messages t1 in
    (t2, PendingSet requestBatchId entry :: acts ++ [SetTimeout TIMEOUT_MS])
  else (t, []).

(** [handlePostRequest] from its entry to its [await] of the race, or to its
    end when it does not reach the race. *)
Definition handlePostRequest (req : IncomingMessage) (uuid : string)
    (t : RestServerTransport) : RestServerTransport * list Action :=
  if not_acceptable req then
    (t, error_envelope 406 (-32000)
          "Not Acceptable: Client must accept application/json" None)
  else if unsupported_media_type req then
    (t, error_envelope 415 (-32000)
          "Unsupported Media Type: Content-Type must be application/json" None)
  else
    match decode (req_body req) with
    | inl e => (t, error_envelope 400 (-32700) "Parse error" (Some e) ++ [OnError e])
    | inr messages => handleMessages messages uuid t
    end.

(** [handleRequest] *)
Definition handleRequest (req : IncomingMessage) (uuid : string)
    (t : RestServerTransport) : RestServerTransport * list Action :=
  if bool_decide (req_method req = "POST") then handlePostRequest req uuid t
  else (t, error_envelope 405 (-32000) "Method not allowed" None).

(** [responses.length === 1 ? responses[0] : responses] *)
Definition responseBody (responses : list JSONRPCMessage) : Body :=
  match responses with
  | [r] => BodyMessage r
  | _ => BodyMessages responses
  end.

(** [handlePostRequest] after the race has settled with [responses]. *)
Definition afterRace (requestBatchId : string) (responses : list JSONRPCMessage)
    (t : RestServerTransport) : RestServerTransport * list Action :=
  (mkTransport (Map_delete requestBatchId (_pendingRequests t)) (onmessage t),
   [PendingDelete requestBatchId;
    WriteHead 200 [("Content-Type", "application/json")];
    ResEnd (Some (responseBody responses))]).

(** ** Events

    [EvPost]: an HTTP request arrives and runs up to its [await].
    [EvSend]: the downstream side calls [send] on its own.
    [EvResume]: a call whose [responsePromise] won the race continues; the
    value it reads is the entry's array at that moment.
    [EvTimer]: the timer of a call fires; it settles the race with [[]] unless
    [resolve] was called before, and the call continues at once.
    An event that is not enabled leaves the state as it is.  In [step] a
    continuation is enabled by the entry of its batch, which stands for the
    suspended call as long as the call has reached its [await], tokens are
    not reused and the registry is not cleared; [advance] keeps the suspended
    calls apart from the registry. *)
Inductive Event :=
| EvPost (req : IncomingMessage) (uuid : string)
| EvSend (m : JSONRPCMessage)
| EvResume (batchId : string)
| EvTimer (batchId : string).

Definition step (e : Event) (t : RestServerTransport)
  : RestServerTransport * list Action :=
  match e with
  | EvPost req uuid => handleRequest req uuid t
  | EvSend m => send m t
  | EvResume batchId =>
      match Map_get batchId (_pendingRequests t) with
      | Some p => if resolved p then afterRace batchId (responseMessages p) t else (t, [])
      | None => (t, [])
      end
  | EvTimer batchId =>
      match Map_get batchId (_pendingRequests t) with
      | Some p => if resolved p then (t, []) else afterRace batchId [] t
      | None => (t, [])
      end
  end.

Fixpoint run (es : list Event) (t : RestServerTransport)
  : RestServerTransport * list Action :=
  match es with
  | [] => (t, [])
  | e :: es' =>
      let '(t1, a1) := step e t in
      let '(t2, a2) := run es' t1 in
      (t2, a1 ++ a2)
  end.

(** The messages passed to [send], in call order. *)
Definition sends_of (acts : list Action) : list JSONRPCMessage :=
  omap (fun a => match a with SendCall m => Some m | _ => None end) acts.

(** The messages handed to the [onmessage] handler, in call order. *)
Definition forwards_of (acts : list Action) : list JSONRPCMessage :=
  omap (fun a => match a with OnMessage m => Some m | _ => None end) acts.

(** The actions on the HTTP response. *)
Definition is_http (a : Action) : bool :=
  match a with
  | WriteHead _ _ | ResEnd _ => true
  | _ => false
  end.

Definition http_of (acts : list Action) : list Action :=
  filter (fun a => is_http a = true) acts.

(** ** Argument and environment lookup

    [process.argv] is a list of strings, [process.env] a finite map from
    names to strings, and the object built by [getParams] a finite map whose
    values may be [undefined] ([None]): the own properties of the object.
    Case conversion is that of the ASCII letters and leaves every other
    character as it is.  The object inherits from [Object.prototype]: [prop]
    is the property read for a name that is not one of
    [Object_prototype_members], and the statements that read a property of an
    arbitrary name say so. *)

Abbreviation JSObject := (gmap string (option string)).
Abbreviation Env := (gmap string string).

Definition toUpperCase_ascii (c : ascii) : ascii :=
  let n := nat_of_ascii c in
  if bool_decide (97 ≤ n ≤ 122)%nat then ascii_of_nat (n - 32) else c.

Definition toLowerCase_ascii (c : ascii) : ascii :=
  let n := nat_of_ascii c in
  if bool_decide (65 ≤ n ≤ 90)%nat then ascii_of_nat (n + 32) else c.

Fixpoint string_map (f : ascii -> ascii) (s : string) : string :=
  match s with
  | EmptyString => EmptyString
  | String c s' => String (f c) (string_map f s')
  end.

Definition toUpperCase : string -> string := string_map toUpperCase_ascii.
Definition toLowerCase : string -> string := string_map toLowerCase_ascii.

(** [s.slice(2)] *)
Definition slice2 (s : string) : string :=
  match s with
  | String _ (String _ s') => s'
  | _ => EmptyString
  end.

(** [s.split(sep)] for a one-character separator. *)
Fixpoint split (sep : ascii) (s : string) : list string :=
  match s with
  | EmptyString => [EmptyString]
  | String c s' =>
      if bool_decide (c = sep) then EmptyString :: split sep s'
      else match split sep s' with
           | w :: ws => String c w :: ws
           | [] => [String c EmptyString]
           end
  end.

(** [getParams]: the same in both copies.  [args[key] = value] stores an own
    property, except under the key [__proto__]: there the assignment calls the
    setter inherited from [Object.prototype], which ignores a value that is a
    string or [undefined], and the object is left as it is. *)
Definition getParams (argv : list string) : JSObject :=
  foldl
    (fun (args : JSObject) (arg : string) =>
       if String.prefix "--" arg then
         match split "="%char (slice2 arg) with
         | key :: rest =>
             if bool_decide (key = "__proto__") then args
             else <[key := head rest]> args
         | [] => args
         end
       else args)
    ∅ (drop 2 argv).

(** [args[name]] for a name that is not inherited: the own property. *)
Definition prop (args : JSObject) (name : string) : option string :=
  match args !! name with
  | Some v => v
  | None => None
  end.

(** [a || b] on values that are a string or [undefined]. *)
Definition js_or (a b : option string) : option string :=
  match a with
  | Some s => if bool_decide (s = "") then b else a
  | None => b
  end.

Infix "|||" := js_or (at level 50, left associativity).

(** The value of a chain that ends in [|| ""]. *)
Definition or_empty (a : option string) : string :=
  match a ||| Some "" with
  | Some s => s
  | None => ""
  end.

(** The chain of six lookups both copies share. *)
Definition lookup_chain (args : JSObject) (env : Env) (name : string) : string :=
  or_empty
    (prop args name |||
     prop args (toUpperCase name) |||
     prop args (toLowerCase name) |||
     env !! name |||
     env !! toUpperCase name |||
     env !! toLowerCase name).

(** First unnamed copy: an empty argument object ends the lookup. *)
Module Part000.

Definition getParamValue (argv : list string) (env : Env) (name : string) : string :=
  let args := getParams argv in
  if bool_decide (size args = 0%nat) then ""
  else lookup_chain args env name.

End Part000.

(** Second unnamed copy: an empty argument object is replaced by [{}]. *)
Module Part001.

Definition getParamValue (argv : list string) (env : Env) (name : string) : string :=
  let args := getParams argv in
  let args := if bool_decide (size args = 0%nat) then (∅ : JSObject) else args in
  lookup_chain args env name.

End Part001.

(** The lookup as the interface describes it: the first non-empty value in
    the order arguments (exact, upper, lower) then environment (exact,
    upper, lower); the empty string when there is none. *)
Fixpoint first_nonempty (candidates : list (option string)) : string :=
  match candidates with
  | [] => ""
  | Some s :: rest => if bool_decide (s = "") then first_nonempty rest else s
  | None :: rest => first_nonempty rest
  end.

Definition lookup_described (args : JSObject) (env : Env) (name : string) : string :=
  first_nonempty
    [prop args name; prop args (toUpperCase name); prop args (toLowerCase name);
     env !! name; env !! toUpperCase name; env !! toLowerCase name].


(** ** Vocabulary of the statements *)

(** The tokens registered in the transport, in registration order. *)
Definition keys (t : RestServerTransport) : list string :=
  (_pendingRequests t).*1.

(** The messages of a request that passes the header checks and decodes. *)
Definition accepted (req : IncomingMessage) : option (list JSONRPCMessage) :=
  if not_acceptable req || unsupported_media_type req then None
  else match decode (req_body req) with
       | inr messages => Some messages
       | inl _ => None
       end.

(** A response whose identifier, as a string, is [i]. *)
Definition answers (i : string) (m : JSONRPCMessage) : bool :=
  isResponse m && bool_decide (String_msg_id m = i).

(** A response whose identifier, as a string, is one of [ids]. *)
Definition claimed (ids : list string) (m : JSONRPCMessage) : bool :=
  isResponse m && includes_id ids (String_msg_id m).

(** The entry [p] after [send] has pushed [m] on it. *)
Definition collect (m : JSONRPCMessage) (p : PendingRequest) : PendingRequest :=
  mkPending
    (resolved p
     || bool_decide (length (responseMessages p ++ [m]) = length (requestIds p)))
    (responseMessages p ++ [m]) (requestIds p).

(** No entry of [entries] expects the identifier [i]. *)
Definition unexpected (i : string) (entries : list (string * PendingRequest)) : Prop :=
  ∀ k q, (k, q) ∈ entries → i ∉ requestIds q.

(** [resolve] has been called exactly when the count was reached. *)
Definition entry_ok (p : PendingRequest) : Prop :=
  resolved p = true ↔ (length (requestIds p) ≤ length (responseMessages p))%nat.

(** [randomUUID()] returns a token that is not registered at that moment. *)
Fixpoint fresh_uuids (es : list Event) (t : RestServerTransport) : Prop :=
  match es with
  | [] => True
  | e :: es' =>
      match e with
      | EvPost _ uuid => uuid ∉ keys t
      | _ => True
      end ∧ fresh_uuids es' (step e t).1
  end.

(** The call with token [tok] neither resumes nor times out during [es]. *)
Definition awaiting (tok : string) (es : list Event) : Prop :=
  ∀ e, e ∈ es → e ≠ EvResume tok ∧ e ≠ EvTimer tok.

(** The transport as constructed: no pending entry. *)
Definition initial (handler : option (JSONRPCMessage -> list JSONRPCMessage))
  : RestServerTransport :=
  mkTransport [] handler.

(** The responses among [sent] that bear one of [ids], in the order sent. *)
Definition collected_from (ids : list string) (sent : list JSONRPCMessage)
  : list JSONRPCMessage :=
  filter (fun m => claimed ids m = true) sent.

(** One pass of the loop: tokens stay, at most the entries that expect the
    identifier change, and such an entry changes by one push. *)
Definition scan_rel (i : string) (m : JSONRPCMessage)
    (x y : string * PendingRequest) : Prop :=
  x.1 = y.1 ∧ (y.2 = x.2 ∨ (i ∈ requestIds x.2 ∧ y.2 = collect m x.2)).

(** [owns tok ids c t]: the batch [tok] is registered in [t], expects [ids],
    has collected [c], and no entry registered before it expects any of its
    identifiers. *)
Definition owns (tok : string) (ids : list string) (c : list JSONRPCMessage)
    (t : RestServerTransport) : Prop :=
  ∃ pre p post,
    _pendingRequests t = pre ++ (tok, p) :: post
    ∧ (tok ∉ pre.*1)
    ∧ (∀ i, i ∈ ids → unexpected i pre)
    ∧ requestIds p = ids
    ∧ responseMessages p = c
    ∧ entry_ok p.

(** What reaches the handler: nothing when [onmessage] is not set. *)
Definition forwarded (t : RestServerTransport) (ms : list JSONRPCMessage)
  : list JSONRPCMessage :=
  match onmessage t with
  | Some _ => ms
  | None => []
  end.

(** The actions of [send], and those of the forwarding loop. *)
Definition is_sending (a : Action) : bool :=
  match a with
  | SendCall _ | Resolve _ => true
  | _ => false
  end.

Definition is_internal (a : Action) : bool :=
  match a with
  | OnMessage _ => true
  | _ => is_sending a
  end.

(** The batch [tok] is registered in [t] and expects [ids]. *)
Definition registered (tok : string) (ids : list string) (t : RestServerTransport)
  : Prop :=
  ∃ p, Map_get tok (_pendingRequests t) = Some p ∧ requestIds p = ids.

(** Every registered entry is resolved exactly at its count. *)
Definition registry_ok (t : RestServerTransport) : Prop :=
  Forall (fun x => entry_ok x.2) (_pendingRequests t).

(** The delays of the timers an operation sets. *)
Definition timers_of (acts : list Action) : list Z :=
  omap (fun a => match a with SetTimeout ms => Some ms | _ => None end) acts.

(** The expected identifiers as the data model words them: one slot for
    each distinct identifier. *)
Definition distinct_requestIds (messages : list JSONRPCMessage) : list string :=
  remove_dups (requestIds_of messages).

(** ** Sample inputs *)

Definition json_post (body : Decoded) : IncomingMessage :=
  mkReq "POST" None (Some "application/json") body.

Definition ping (i : string) : JSONRPCMessage :=
  JSONRPCRequest (IdString i) "ping" None.

Definition pong (i : string) : JSONRPCMessage :=
  JSONRPCResponse (IdString i) (JObject []).

Definition notify : JSONRPCMessage := JSONRPCNotification "notify" None.

(** A handler that answers every request at once and sends nothing else. *)
Definition echo_handler (m : JSONRPCMessage) : list JSONRPCMessage :=
  match m with
  | JSONRPCRequest i _ _ => [JSONRPCResponse i (JObject [])]
  | _ => []
  end.

Definition JSON_HEADERS : list (string * string) :=
  [("Content-Type", "application/json")].

(** A transport with one batch waiting for ["1"] and ["2"]. *)
Definition one_batch : RestServerTransport :=
  mkTransport [("b1", mkPending false [] ["1"; "2"])] None.

(** ** Lifecycle: [start], [startServer], [stopServer], [close]

    The flags of the class beside the registry.  [_server] and [_httpServer]
    record whether the field is non-null.  What [listen] and the server's
    [close] do is an input of the operation; a promise returned by an
    operation is fulfilled, rejected, or never settles. *)

Record Lifecycle := mkLifecycle {
  _started : bool;
  _server : bool;
  _httpServer : bool;
  transport : RestServerTransport
}.

(** [listen] calls back once the server listens, throws before returning, or
    the server emits ["error"].  In the last case the callback given to
    [listen] is called with the error as well ([callback] is [true]) when
    [listen] registers it for that event too, as Express 5 does; Express 4
    leaves it to the ["listening"] event alone. *)
Inductive ListenOutcome :=
| Listening
| ListenThrows (error : string)
| ListenErrorEvent (error : string) (callback : bool).

(** The callback of the server's [close]: no error, or an error. *)
Inductive CloseOutcome :=
| Closed
| CloseFails (error : string).

Inductive Settled :=
| Fulfilled
| RejectedWith (error : string)
| NeverSettles.

Inductive LifecycleAction :=
| ConsoleLog
| ConsoleError (error : string)
| OnErrorCall (error : string)
| OnCloseCall.

(** The transport as the constructor leaves it. *)
Definition constructed (handler : option (JSONRPCMessage -> list JSONRPCMessage))
  : Lifecycle :=
  mkLifecycle false false false (initial handler).

(** [start] *)
Definition start (s : Lifecycle) : Lifecycle * Settled :=
  if _started s then (s, RejectedWith "Transport already started")
  else (mkLifecycle true (_server s) (_httpServer s) (transport s), Fulfilled).

(** [startServer] *)
Definition startServer (o : ListenOutcome) (s : Lifecycle)
  : Lifecycle * Settled * list LifecycleAction :=
  if _server s then (s, RejectedWith "Server is already running", [])
  else
    match o with
    | Listening =>
        (mkLifecycle (_started s) true true (transport s), Fulfilled, [ConsoleLog])
    | ListenThrows e =>
        (mkLifecycle (_started s) true (_httpServer s) (transport s),
         RejectedWith e, [])
    | ListenErrorEvent e callback =>
        if callback then
          (mkLifecycle (_started s) true true (transport s), Fulfilled,
           [ConsoleLog; ConsoleError e; OnErrorCall e])
        else
          (mkLifecycle (_started s) true true (transport s), NeverSettles,
           [ConsoleError e; OnErrorCall e])
    end.

(** [stopServer] *)
Definition stopServer (o : CloseOutcome) (s : Lifecycle) : Lifecycle * Settled :=
  if _httpServer s then
    match o with
    | CloseFails e => (s, RejectedWith e)
    | Closed => (mkLifecycle (_started s) false false (transport s), Fulfilled)
    end
  else (s, Fulfilled).

(** [close] *)
Definition close (o : CloseOutcome) (s : Lifecycle)
  : Lifecycle * Settled * list LifecycleAction :=
  match stopServer o s with
  | (s1, Fulfilled) =>
      (mkLifecycle (_started s1) (_server s1) (_httpServer s1)
         (mkTransport [] (onmessage (transport s1))),
       Fulfilled, [OnCloseCall])
  | (s1, r) => (s1, r, [])
  end.

(** The operations a user of the transport performs, in some order.
    [operate] follows the state only: the flags and the registry. *)
Inductive Operation :=
| OpStart
| OpStartServer (o : ListenOutcome)
| OpStopServer (o : CloseOutcome)
| OpClose (o : CloseOutcome)
| OpEvent (e : Event).

Definition operate (op : Operation) (s : Lifecycle) : Lifecycle :=
  match op with
  | OpStart => (start s).1
  | OpStartServer o => (startServer o s).1.1
  | OpStopServer o => (stopServer o s).1
  | OpClose o => (close o s).1.1
  | OpEvent e =>
      mkLifecycle (_started s) (_server s) (_httpServer s) (step e (transport s)).1
  end.

Definition operate_all (ops : list Operation) (s : Lifecycle) : Lifecycle :=
  foldl (fun s op => operate op s) s ops.

(** ** [getAuthValue]

    [auth] is the value of [request.params?._meta?.auth], [None] when it is
    [undefined].  An object lists each of its fields once; an array has its
    indices and [length] as properties; a number is an integer.  [JSON_get]
    is the own property: it is the property read for a name that the value
    does not inherit, and the statements that read a property of an arbitrary
    name say so. *)

(** A value in a boolean position. *)
Definition JSON_truthy (v : JSON) : bool :=
  match v with
  | JNull => false
  | JBool b => b
  | JNumber n => negb (bool_decide (n = 0))
  | JString s => negb (bool_decide (s = ""))
  | JArray _ | JObject _ => true
  end.

(** [typeof v === "object"] *)
Definition typeof_object (v : JSON) : bool :=
  match v with
  | JNull | JArray _ | JObject _ => true
  | _ => false
  end.

(** [Object.keys(v).length] for an object or an array. *)
Definition Object_keys_length (v : JSON) : nat :=
  match v with
  | JObject fields => length fields
  | JArray items => length items
  | _ => 0
  end.

(** The element of an array under a property name that is an index. *)
Fixpoint array_index (i : nat) (items : list JSON) (name : string) : option JSON :=
  match items with
  | [] => None
  | x :: rest =>
      if bool_decide (pretty i = name) then Some x else array_index (S i) rest name
  end.

(** [v[name]] for an object or an array and a name that is not inherited. *)
Definition JSON_get (v : JSON) (name : string) : option JSON :=
  match v with
  | JObject fields => Map_get name fields
  | JArray items =>
      if bool_decide (name = "length") then Some (JNumber (Z.of_nat (length items)))
      else array_index 0 items name
  | _ => None
  end.

(** [a || b] on values that may be [undefined]. *)
Definition json_or (a b : option JSON) : option JSON :=
  match a with
  | Some v => if JSON_truthy v then a else b
  | None => b
  end.

(** [!auth || typeof auth !== "object" || Object.keys(auth).length === 0] *)
Definition auth_unusable (auth : option JSON) : bool :=
  match auth with
  | None => true
  | Some v =>
      negb (JSON_truthy v) || negb (typeof_object v)
      || bool_decide (Object_keys_length v = 0%nat)
  end.

(** [process.env[name]] as a value. *)
Definition env_value (env : Env) (name : string) : option JSON :=
  JString <$> env !! name.

(** The chain of six lookups of [getAuthValue], ending in [|| ""]. *)
Definition auth_chain (auth : JSON) (env : Env) (name : string) : JSON :=
  default (JString "")
    (json_or
       (json_or
          (json_or
             (json_or
                (json_or
                   (json_or (JSON_get auth name) (JSON_get auth (toUpperCase name)))
                   (JSON_get auth (toLowerCase name)))
                (env_value env name))
             (env_value env (toUpperCase name)))
          (env_value env (toLowerCase name)))
       (Some (JString ""))).

(** First unnamed copy: an unusable [auth] ends the lookup. *)
Module Part000_auth.

Definition getAuthValue (auth : option JSON) (env : Env) (name : string) : JSON :=
  if auth_unusable auth then JString ""
  else auth_chain (default (JObject []) auth) env name.

End Part000_auth.

(** Second unnamed copy: an unusable [auth] is replaced by [{}]. *)
Module Part001_auth.

Definition getAuthValue (auth : option JSON) (env : Env) (name : string) : JSON :=
  let auth := if auth_unusable auth then JObject [] else default (JObject []) auth in
  auth_chain auth env name.

End Part001_auth.

(** The first truthy value of a list of candidates, [""] when there is none. *)
Fixpoint first_truthy (candidates : list (option JSON)) : JSON :=
  match candidates with
  | [] => JString ""
  | Some v :: rest => if JSON_truthy v then v else first_truthy rest
  | None :: rest => first_truthy rest
  end.

(** ** Vocabulary of the further statements *)

(** The number of responses held by all the batches. *)
Definition total_collected (t : RestServerTransport) : nat :=
  sum_list_with (fun x => length (responseMessages x.2)) (_pendingRequests t).

(** The number of calls of the [resolve] callback of the batch [tok]. *)
Definition is_resolve (tok : string) (a : Action) : bool :=
  match a with
  | Resolve k => bool_decide (k = tok)
  | _ => false
  end.

Definition resolves_of (tok : string) (acts : list Action) : nat :=
  length (filter (fun a => is_resolve tok a = true) acts).

(** The tokens are distinct, the batch [tok] is registered, and [n], the
    number of calls of its [resolve] so far, is one if it is resolved and
    zero if not. *)
Definition resolved_once (tok : string) (n : nat) (t : RestServerTransport) : Prop :=
  NoDup (keys t)
  ∧ ∃ p, Map_get tok (_pendingRequests t) = Some p
         ∧ entry_ok p
         ∧ n = if resolved p then 1%nat else 0%nat.

(** The statuses of the error envelopes. *)
Definition error_statuses : list Z := [400; 405; 406; 415].

(** The body of the loop of [getParams]. *)
Definition add_flag (args : JSObject) (arg : string) : JSObject :=
  if String.prefix "--" arg then
    match split "="%char (slice2 arg) with
    | key :: rest =>
        if bool_decide (key = "__proto__") then args
        else <[key := head rest]> args
    | [] => args
    end
  else args.

(** [arg.startsWith("--")] *)
Definition startsWith_dashes (arg : string) : bool := String.prefix "--" arg.





(** No character of [s] is [c]. *)
Fixpoint free_of (c : ascii) (s : string) : bool :=
  match s with
  | EmptyString => true
  | String c' s' => negb (bool_decide (c' = c)) && free_of c s'
  end.

(** ** The call with its [catch] clause

    An invocation of the handler may throw.  [throws] gives, for a message,
    the exception the handler throws on it, after the calls of [send] that
    [onmessage] lists for it; [None] when the handler returns.  An exception
    stands for its own [String]. *)

Definition Thrower := JSONRPCMessage -> option string.

(** How a call of [handleRequest] ends its synchronous part: it has returned
    and its promise is fulfilled, it is suspended at the [await] of the race
    of its batch, or its promise is rejected. *)
Inductive CallStatus :=
| Returned
| Awaits (batchId : string)
| Rejected (error : string).

(** The transport together with the tokens of the calls that are suspended
    at their race, in the order they reached it. *)
Record Session := mkSession {
  session_transport : RestServerTransport;
  suspended : list string
}.

(** What the [res.writeHead] of Node throws on a response whose head is
    already written. *)
Definition ERR_HTTP_HEADERS_SENT : string := "ERR_HTTP_HEADERS_SENT".

(** One call leaves the suspended calls. *)
Fixpoint leave (batchId : string) (calls : list string) : list string :=
  match calls with
  | [] => []
  | k :: rest => if bool_decide (k = batchId) then rest else k :: leave batchId rest
  end.

Section Catching.
Variable throws : Thrower.

(** The exception of [this.onmessage?.(message)]: none without a handler. *)
Definition thrown (t : RestServerTransport) (message : JSONRPCMessage)
  : option string :=
  match onmessage t with
  | Some _ => throws message
  | None => None
  end.

(** [for (const message of messages) this.onmessage?.(message)]: the loop
    ends at the first invocation that throws, with its exception. *)
Fixpoint forward_all_catching (messages : list JSONRPCMessage)
    (t : RestServerTransport) : RestServerTransport * list Action * option string :=
  match messages with
  | [] => (t, [], None)
  | m :: rest =>
      let '(t1, a1) := forward m t in
      match thrown t m with
      | Some e => (t1, a1, Some e)
      | None =>
          let '(t2, a2, r) := forward_all_catching rest t1 in
          (t2, a1 ++ a2, r)
      end
  end.

(** Lines 212-258 inside [try], with lines 274-288.  In the notification
    branch the [202] has been written when the handler throws: the
    [res.writeHead(400)] of the [catch] clause throws in its turn, nothing
    more is written, [onerror] is not reached and the promise of the call is
    rejected.  In the request branch the [catch] clause answers [400] and
    calls [onerror]; the race is not reached, so no timer is set, and nothing
    deletes the entry registered before the loop. *)
Definition handleMessages_catching (messages : list JSONRPCMessage) (uuid : string)
    (t : RestServerTransport) : RestServerTransport * list Action * CallStatus :=
  let hasRequests := existsb isRequest messages in
  let hasOnlyNotifications := forallb isNotification messages in
  if hasOnlyNotifications then
    let '(t', acts, r) := forward_all_catching messages t in
    (t', WriteHead 202 [] :: ResEnd None :: acts,
     match r with
     | Some _ => Rejected ERR_HTTP_HEADERS_SENT
     | None => Returned
     end)
  else if hasRequests then
    let requestBatchId := uuid in
    let entry := mkPending false [] (requestIds_of messages) in
    let t1 := mkTransport (Map_set requestBatchId entry (_pendingRequests t))
                (onmessage t) in
    let '(t2, acts, r) := forward_all_catching messages t1 in
    match r with
    | Some error =>
        (t2,
         PendingSet requestBatchId entry
           :: acts ++ error_envelope 400 (-32700) "Parse error" (Some error)
           ++ [OnError error],
         Returned)
    | None =>
        (t2, PendingSet requestBatchId entry :: acts ++ [SetTimeout TIMEOUT_MS],
         Awaits requestBatchId)
    end
  else (t, [], Returned).

(** [handlePostRequest] up to its [await] of the race or to its end. *)
Definition handlePostRequest_catching (req : IncomingMessage) (uuid : string)
    (t : RestServerTransport) : RestServerTransport * list Action * CallStatus :=
  if not_acceptable req then
    (t, error_envelope 406 (-32000)
          "Not Acceptable: Client must accept application/json" None, Returned)
  else if unsupported_media_type req then
    (t, error_envelope 415 (-32000)
          "Unsupported Media Type: Content-Type must be application/json" None,
     Returned)
  else
    match decode (req_body req) with
    | inl e =>
        (t, error_envelope 400 (-32700) "Parse error" (Some e) ++ [OnError e],
         Returned)
    | inr messages => handleMessages_catching messages uuid t
    end.

(** [handleRequest] *)
Definition handleRequest_catching (req : IncomingMessage) (uuid : string)
    (t : RestServerTransport) : RestServerTransport * list Action * CallStatus :=
  if bool_decide (req_method req = "POST") then handlePostRequest_catching req uuid t
  else (t, error_envelope 405 (-32000) "Method not allowed" None, Returned).

(** The suspended call [batchId] continues with the value of the race. *)
Definition continue (batchId : string) (responses : list JSONRPCMessage)
    (s : Session) : Session * list Action :=
  let '(t, acts) := afterRace batchId responses (session_transport s) in
  (mkSession t (leave batchId (suspended s)), acts).

(** The events on a session.  A call is suspended when it reaches its race.
    [EvResume] continues a suspended call whose batch is resolved, with the
    array of the batch.  [EvTimer] is the timer of a suspended call: it does
    nothing when [resolve] was called on the batch, and continues the call
    with [[]] otherwise.  A continuation of a call that is not suspended is
    not enabled. *)
Definition advance (e : Event) (s : Session) : Session * list Action :=
  match e with
  | EvPost req uuid =>
      let '(t, acts, status) := handleRequest_catching req uuid (session_transport s) in
      (mkSession t
         match status with
         | Awaits batchId => suspended s ++ [batchId]
         | _ => suspended s
         end,
       acts)
  | EvSend m =>
      let '(t, acts) := send m (session_transport s) in
      (mkSession t (suspended s), acts)
  | EvResume batchId =>
      if bool_decide (batchId ∈ suspended s) then
        match Map_get batchId (_pendingRequests (session_transport s)) with
        | Some p =>
            if resolved p then continue batchId (responseMessages p) s else (s, [])
        | None => (s, [])
        end
      else (s, [])
  | EvTimer batchId =>
      if bool_decide (batchId ∈ suspended s) then
        match Map_get batchId (_pendingRequests (session_transport s)) with
        | Some p => if resolved p then (s, []) else continue batchId [] s
        | None => continue batchId [] s
        end
      else (s, [])
  end.

Fixpoint play (es : list Event) (s : Session) : Session * list Action :=
  match es with
  | [] => (s, [])
  | e :: es' =>
      let '(s1, a1) := advance e s in
      let '(s2, a2) := play es' s1 in
      (s2, a1 ++ a2)
  end.

(** [randomUUID()] returns a token that is not registered at that moment. *)
Fixpoint fresh_tokens (es : list Event) (s : Session) : Prop :=
  match es with
  | [] => True
  | e :: es' =>
      match e with
      | EvPost _ uuid => uuid ∉ keys (session_transport s)
      | _ => True
      end ∧ fresh_tokens es' (advance e s).1
  end.

End Catching.

(** No invocation of the handler on a message of [messages] throws. *)
Definition quiet (throws : Thrower) (t : RestServerTransport)
    (messages : list JSONRPCMessage) : Prop :=
  ∀ m, m ∈ messages → thrown throws t m = None.

(** A session on a transport as constructed: no batch, no suspended call. *)
Definition opened (handler : option (JSONRPCMessage -> list JSONRPCMessage))
  : Session :=
  mkSession (initial handler) [].

(** A handler that sends nothing, and one that throws on every request. *)
Definition silent_handler (m : JSONRPCMessage) : list JSONRPCMessage := [].

Definition throws_on_requests (m : JSONRPCMessage) : option string :=
  if isRequest m then Some "Error: tool failed" else None.

Definition never_throws (m : JSONRPCMessage) : option string := None.

(** ** The registry as a map *)

Section MapLemmas.
Context {V : Type}.
Implicit Types (m : list (string * V)) (k : string) (v : V).

Lemma Map_get_delete k m : Map_get k (Map_delete k m) = None.
Proof.
  induction m as [|[k' v'] m IH]; simpl; [done|].
  case_bool_decide as Hk; [done|]. simpl. by rewrite bool_decide_false.
Qed.


Lemma Map_delete_elem_of k m x : x ∈ Map_delete k m → x ∈ m.
Proof.
  induction m as [|[k' v'] m IH]; simpl; [done|].
  case_bool_decide as Hk.
  - intros Hx. rewrite elem_of_cons. auto.
  - rewrite !elem_of_cons. intros [->|Hx]; auto.
Qed.

Lemma Map_get_delete_ne k k' m : k ≠ k' → Map_get k (Map_delete k' m) = Map_get k m.
Proof.
  intros Hne. induction m as [|[k1 v1] m IH]; simpl; [done|].
  case_bool_decide as H1; simpl.
  - subst k1. rewrite bool_decide_false; [done|congruence].
  - by rewrite IH.
Qed.

Lemma Map_set_fresh k v m : k ∉ m.*1 → Map_set k v m = m ++ [(k, v)].
Proof.
  induction m as [|[k' v'] m IH]; simpl; [done|].
  rewrite not_elem_of_cons. intros [Hne Hin].
  rewrite bool_decide_false; [|congruence]. by rewrite IH.
Qed.

Lemma Map_get_set k v m : Map_get k (Map_set k v m) = Some v.
Proof.
  induction m as [|[k' v'] m IH]; simpl.
  - by rewrite bool_decide_true.
  - case_bool_decide as Hk; simpl.
    + by rewrite bool_decide_true.
    + by rewrite bool_decide_false.
Qed.

Lemma Map_get_app_fresh k m v m' :
  k ∉ m.*1 → Map_get k (m ++ (k, v) :: m') = Some v.
Proof.
  induction m as [|[k' v'] m IH]; simpl.
  - intros _. by rewrite bool_decide_true.
  - rewrite not_elem_of_cons. intros [Hne Hin].
    rewrite bool_decide_false; [|congruence]. by apply IH.
Qed.

Lemma Map_delete_app k m m' :
  Map_delete k (m ++ m') = Map_delete k m ++ Map_delete k m'.
Proof.
  induction m as [|[k' v'] m IH]; simpl; [done|].
  case_bool_decide; [done|]. simpl. by rewrite IH.
Qed.

Lemma Map_delete_fresh k m : k ∉ m.*1 → Map_delete k m = m.
Proof.
  induction m as [|[k' v'] m IH]; simpl; [done|].
  rewrite not_elem_of_cons. intros [Hne Hin].
  rewrite bool_decide_false; [|congruence]. by rewrite IH.
Qed.

Lemma Map_get_elem_of k v m : Map_get k m = Some v → (k, v) ∈ m.
Proof.
  induction m as [|[k' v'] m IH]; simpl; [done|].
  case_bool_decide as Hk.
  - intros [= ->]. subst. rewrite elem_of_cons. auto.
  - intros Hg. rewrite elem_of_cons. auto.
Qed.

Lemma Map_get_set_ne k k' v m : k ≠ k' → Map_get k (Map_set k' v m) = Map_get k m.
Proof.
  intros Hne. induction m as [|[k1 v1] m IH]; simpl.
  - rewrite bool_decide_false; [done|congruence].
  - case_bool_decide as H1; simpl.
    + subst k1. by rewrite !bool_decide_false by congruence.
    + by rewrite IH.
Qed.

Lemma Map_get_keys k v m : Map_get k m = Some v → k ∈ m.*1.
Proof.
  intros Hg. apply Map_get_elem_of in Hg. apply list_elem_of_fmap. by exists (k, v).
Qed.
End MapLemmas.

(** ** What [send] does to the registry *)

Lemma send_not_response m t : isResponse m = false → send m t = (t, [SendCall m]).
Proof. unfold send, isResponse. by destruct m. Qed.

Lemma send_response m t :
  isResponse m = true →
  send m t =
    (mkTransport (send_scan (String_msg_id m) m (_pendingRequests t)).1 (onmessage t),
     SendCall m :: (send_scan (String_msg_id m) m (_pendingRequests t)).2).
Proof.
  unfold send, isResponse. intros Hr.
  destruct (send_scan _ _ _) as [es a]. by destruct m.
Qed.

Lemma send_scan_unexpected i m entries :
  unexpected i entries → send_scan i m entries = (entries, []).
Proof.
  induction entries as [|[k q] entries IH]; intros Hun; simpl; [done|].
  unfold includes_id. rewrite bool_decide_false.
  - rewrite IH; [done|]. intros k' q' Hin. apply (Hun k' q').
    rewrite elem_of_cons. auto.
  - apply (Hun k q). rewrite elem_of_cons. auto.
Qed.

Lemma send_scan_first i m pre tok p post :
  unexpected i pre → i ∈ requestIds p →
  send_scan i m (pre ++ (tok, p) :: post) =
    (pre ++ (tok, collect m p) :: post,
     if bool_decide (length (responseMessages p ++ [m]) = length (requestIds p))
     then [Resolve tok] else []).
Proof.
  intros Hun Hin. induction pre as [|[k q] pre IH]; simpl.
  - unfold includes_id, collect. rewrite bool_decide_true by done.
    case_bool_decide; [|by rewrite orb_false_r].
    by rewrite orb_true_r.
  - unfold includes_id at 1. rewrite bool_decide_false.
    + rewrite IH; [done|]. intros k' q' Hk. apply (Hun k' q').
      rewrite elem_of_cons. auto.
    + apply (Hun k q). rewrite elem_of_cons. auto.
Qed.

Lemma send_scan_shape i m entries :
  Forall2 (scan_rel i m) entries (send_scan i m entries).1.
Proof.
  induction entries as [|[k q] entries IH]; simpl; [constructor|].
  unfold includes_id. case_bool_decide as Hi.
  - assert (Forall2 (scan_rel i m) entries entries) as Hrefl.
    { apply Forall_Forall2_diag, Forall_forall. intros x _. split; auto. }
    case_bool_decide as Hl; simpl; constructor; try done.
    + split; [done|]. right. split; [done|]. unfold collect. simpl.
      rewrite bool_decide_true by done. by rewrite orb_true_r.
    + split; [done|]. right. split; [done|]. unfold collect. simpl.
      rewrite bool_decide_false by done. by rewrite orb_false_r.
  - destruct (send_scan i m entries) as [rest' acts]. simpl.
    constructor; [|done]. split; auto.
Qed.

Lemma collect_entry_ok m p : entry_ok p → entry_ok (collect m p).
Proof.
  unfold entry_ok, collect. simpl. rewrite length_app. simpl.
  intros [H1 H2]. rewrite orb_true_iff, bool_decide_eq_true. split.
  - intros [Hr|Hl]; [apply H1 in Hr|]; lia.
  - intros Hle.
    destruct (decide (length (responseMessages p) + 1 = length (requestIds p))%nat);
      [by right|left; apply H2; lia].
Qed.

Lemma send_keys m t : keys (send m t).1 = keys t.
Proof.
  destruct (isResponse m) eqn:Hr.
  - rewrite send_response by done. unfold keys. simpl.
    pose proof (send_scan_shape (String_msg_id m) m (_pendingRequests t)) as Hs.
    induction Hs as [|x y l l' [Hxy _] _ IH]; [done|].
    rewrite !fmap_cons. by f_equal.
  - by rewrite send_not_response.
Qed.

Lemma sends_of_send m t : sends_of (send m t).2 = [m].
Proof.
  destruct (isResponse m) eqn:Hr.
  - rewrite send_response by done. simpl. f_equal.
    generalize (_pendingRequests t). intros l.
    induction l as [|[k q] l IH]; simpl; [done|].
    destruct (includes_id _ _); [by case_bool_decide|].
    by destruct (send_scan _ _ l).
  - by rewrite send_not_response.
Qed.

Lemma scan_rel_keys i m l l' : Forall2 (scan_rel i m) l l' → l'.*1 = l.*1.
Proof.
  induction 1 as [|x y l l' [Hxy _] _ IH]; [done|].
  rewrite !fmap_cons. by f_equal.
Qed.

Lemma scan_rel_unexpected i m j l l' :
  Forall2 (scan_rel i m) l l' → unexpected j l → unexpected j l'.
Proof.
  induction 1 as [|[k q] [k' q'] l l' [Hk Hq] _ IH]; intros Hun; [done|].
  simpl in *. subst k'. intros k1 q1. rewrite elem_of_cons. intros [[= -> ->]|Hin].
  - assert (j ∉ requestIds q) as Hj.
    { apply (Hun k). rewrite elem_of_cons. auto. }
    by destruct Hq as [->|[_ ->]].
  - apply IH in Hin; [done|]. intros k2 q2 H2. apply (Hun k2).
    rewrite elem_of_cons. auto.
Qed.

Lemma scan_rel_entry_ok i m l l' :
  Forall2 (scan_rel i m) l l' →
  Forall (fun x => entry_ok x.2) l → Forall (fun x => entry_ok x.2) l'.
Proof.
  induction 1 as [|[k q] [k' q'] l l' [Hk Hq] _ IH]; [done|].
  rewrite !Forall_cons. simpl in *. intros [Hq0 Hl]. split; [|auto].
  destruct Hq as [->|[_ ->]]; [done|]. by apply collect_entry_ok.
Qed.

(** ** A batch and what it collects *)

Lemma owns_lookup tok ids c t :
  owns tok ids c t →
  ∃ p, Map_get tok (_pendingRequests t) = Some p
       ∧ requestIds p = ids ∧ responseMessages p = c ∧ entry_ok p.
Proof.
  intros (pre & p & post & Hreg & Hfresh & _ & Hids & Hc & Hok).
  exists p. rewrite Hreg. split; [by apply Map_get_app_fresh|done].
Qed.

Lemma owns_key tok ids c t : owns tok ids c t → tok ∈ keys t.
Proof.
  intros (pre & p & post & Hreg & _). unfold keys. rewrite Hreg, fmap_app, fmap_cons.
  rewrite elem_of_app, elem_of_cons. auto.
Qed.

Lemma collected_from_one ids m :
  collected_from ids [m] = if claimed ids m then [m] else [].
Proof.
  unfold collected_from. destruct (claimed ids m) eqn:Hc.
  - by rewrite filter_cons_True.
  - rewrite filter_cons_False; [done|]. by rewrite Hc.
Qed.

Lemma collected_from_app ids l1 l2 :
  collected_from ids (l1 ++ l2) = collected_from ids l1 ++ collected_from ids l2.
Proof. apply filter_app. Qed.

Lemma owns_send tok ids c m t :
  owns tok ids c t → owns tok ids (c ++ collected_from ids [m]) (send m t).1.
Proof.
  intros (pre & p & post & Hreg & Hfresh & Hun & Hids & Hc & Hok).
  rewrite collected_from_one. unfold claimed.
  destruct (isResponse m) eqn:Hr; simpl.
  2:{ rewrite send_not_response, app_nil_r by done. by exists pre, p, post. }
  rewrite send_response by done. simpl. rewrite Hreg.
  unfold includes_id. case_bool_decide as Hi.
  - rewrite send_scan_first; [|by apply Hun|by rewrite Hids]. simpl.
    exists pre, (collect m p), post. repeat split; try done.
    + simpl. by rewrite Hc.
    + by apply collect_entry_ok.
    + by apply collect_entry_ok.
  - rewrite app_nil_r.
    pose proof (send_scan_shape (String_msg_id m) m (pre ++ (tok, p) :: post)) as Hs.
    apply Forall2_app_inv_l in Hs as (pre' & rest' & Hpre & Hrest & ->).
    apply Forall2_cons_inv_l in Hrest as ([k' p'] & post' & [Hk Hp] & Hpost & ->).
    simpl in *. subst k'.
    destruct Hp as [->|[Hin _]]; [|by rewrite Hids in Hin].
    exists pre', p, post'. repeat split; try done.
    + by rewrite (scan_rel_keys _ _ _ _ Hpre).
    + intros i Hin. eapply scan_rel_unexpected; [done|]. by apply Hun.
    + apply Hok.
    + apply Hok.
Qed.

Lemma sends_of_app a1 a2 : sends_of (a1 ++ a2) = sends_of a1 ++ sends_of a2.
Proof. apply omap_app. Qed.

Lemma owns_send_all tok ids outs : ∀ c t,
  owns tok ids c t →
  owns tok ids (c ++ collected_from ids (sends_of (send_all outs t).2))
    (send_all outs t).1.
Proof.
  induction outs as [|m outs IH]; intros c t Hown; simpl.
  - by rewrite app_nil_r.
  - pose proof (owns_send _ _ _ m _ Hown) as H1.
    pose proof (sends_of_send m t) as Hs.
    destruct (send m t) as [t1 a1]. simpl in *.
    specialize (IH _ _ H1).
    destruct (send_all outs t1) as [t2 a2]. simpl in *.
    by rewrite sends_of_app, Hs, collected_from_app, app_assoc.
Qed.

Lemma owns_forward tok ids m c t :
  owns tok ids c t →
  owns tok ids (c ++ collected_from ids (sends_of (forward m t).2)) (forward m t).1.
Proof.
  intros Hown. unfold forward. destruct (onmessage t) as [h|].
  - pose proof (owns_send_all _ _ (h m) _ _ Hown) as H1.
    by destruct (send_all (h m) t) as [t1 a1].
  - simpl. by rewrite app_nil_r.
Qed.

Lemma owns_forward_all tok ids ms : ∀ c t,
  owns tok ids c t →
  owns tok ids (c ++ collected_from ids (sends_of (forward_all ms t).2))
    (forward_all ms t).1.
Proof.
  induction ms as [|m ms IH]; intros c t Hown; simpl.
  - by rewrite app_nil_r.
  - pose proof (owns_forward _ _ m _ _ Hown) as H1.
    destruct (forward m t) as [t1 a1]. simpl in *.
    specialize (IH _ _ H1).
    destruct (forward_all ms t1) as [t2 a2]. simpl in *.
    by rewrite sends_of_app, collected_from_app, app_assoc.
Qed.

Lemma send_sending m t : Forall (fun a => is_sending a = true) (send m t).2.
Proof.
  destruct (isResponse m) eqn:Hr.
  - rewrite send_response by done. simpl. constructor; [done|].
    generalize (_pendingRequests t). intros l.
    induction l as [|[k q] l IH]; simpl; [constructor|].
    destruct (includes_id _ _).
    + case_bool_decide; simpl; repeat constructor.
    + by destruct (send_scan _ _ l).
  - rewrite send_not_response by done. by repeat constructor.
Qed.

Lemma send_onmessage m t : onmessage (send m t).1 = onmessage t.
Proof.
  destruct (isResponse m) eqn:Hr.
  - by rewrite send_response.
  - by rewrite send_not_response.
Qed.

Lemma send_all_facts outs : ∀ t,
  keys (send_all outs t).1 = keys t
  ∧ onmessage (send_all outs t).1 = onmessage t
  ∧ Forall (fun a => is_sending a = true) (send_all outs t).2.
Proof.
  induction outs as [|m outs IH]; intros t; simpl; [by repeat split|].
  pose proof (send_keys m t) as Hk. pose proof (send_onmessage m t) as Ho.
  pose proof (send_sending m t) as Hi.
  destruct (send m t) as [t1 a1]. simpl in *.
  destruct (IH t1) as (Hk2 & Ho2 & Hi2).
  destruct (send_all outs t1) as [t2 a2]. simpl in *.
  repeat split; [congruence|congruence|by apply Forall_app_2].
Qed.

Lemma sending_forwards acts :
  Forall (fun a => is_sending a = true) acts →
  forwards_of acts = [] ∧ Forall (fun a => is_internal a = true) acts.
Proof.
  induction 1 as [|a l Ha _ [IH1 IH2]]; [done|].
  split; [by destruct a|]. constructor; [by destruct a|done].
Qed.

Lemma forward_facts m t :
  keys (forward m t).1 = keys t
  ∧ onmessage (forward m t).1 = onmessage t
  ∧ Forall (fun a => is_internal a = true) (forward m t).2
  ∧ forwards_of (forward m t).2 = forwarded t [m].
Proof.
  unfold forward, forwarded.
  destruct (onmessage t) as [h|] eqn:Hh; [|by repeat split].
  destruct (send_all_facts (h m) t) as (Hk & Ho & Hi).
  apply sending_forwards in Hi as [Hf Hi].
  destruct (send_all (h m) t) as [t1 a1]. simpl in *.
  repeat split; [done|congruence|by constructor|]. unfold forwards_of in *.
  simpl. by rewrite Hf.
Qed.

Lemma forward_all_facts ms : ∀ t,
  keys (forward_all ms t).1 = keys t
  ∧ onmessage (forward_all ms t).1 = onmessage t
  ∧ Forall (fun a => is_internal a = true) (forward_all ms t).2
  ∧ forwards_of (forward_all ms t).2 = forwarded t ms.
Proof.
  induction ms as [|m ms IH]; intros t; simpl.
  { repeat split; try done. unfold forwarded. by destruct (onmessage t). }
  destruct (forward_facts m t) as (Hk & Ho & Hi & Hf).
  destruct (forward m t) as [t1 a1]. simpl in *.
  destruct (IH t1) as (Hk2 & Ho2 & Hi2 & Hf2).
  destruct (forward_all ms t1) as [t2 a2]. simpl in *.
  repeat split; [congruence|congruence|by apply Forall_app_2|].
  unfold forwards_of, forwarded in *. rewrite omap_app, Hf, Hf2, Ho.
  by destruct (onmessage t).
Qed.

Lemma internal_http acts :
  Forall (fun a => is_internal a = true) acts → http_of acts = [].
Proof.
  induction 1 as [|a l Ha _ IH]; [done|]. unfold http_of in *.
  rewrite filter_cons_False; [done|]. by destruct a.
Qed.

(** ** The batch across the other operations *)

Lemma requestIds_of_nonempty ms : existsb isRequest ms = true → requestIds_of ms ≠ [].
Proof.
  unfold requestIds_of. induction ms as [|m ms IH]; simpl; [done|].
  destruct (isRequest m) eqn:Hm; simpl; intros He.
  - by rewrite filter_cons_True.
  - rewrite filter_cons_False; [auto|]. by rewrite Hm.
Qed.

Lemma owns_register tok ids t :
  tok ∉ keys t →
  (∀ i, i ∈ ids → unexpected i (_pendingRequests t)) →
  ids ≠ [] →
  owns tok ids []
    (mkTransport (Map_set tok (mkPending false [] ids) (_pendingRequests t))
       (onmessage t)).
Proof.
  intros Hfresh Hun Hne. exists (_pendingRequests t), (mkPending false [] ids), [].
  simpl. rewrite Map_set_fresh by done. repeat split; try done.
  destruct ids; [done|]. simpl. lia.
Qed.

Lemma owns_other_register tok ids c t uuid e :
  owns tok ids c t → uuid ∉ keys t →
  owns tok ids c (mkTransport (Map_set uuid e (_pendingRequests t)) (onmessage t)).
Proof.
  intros (pre & p & post & Hreg & Hfresh & Hun & Hrest) Hu.
  exists pre, p, (post ++ [(uuid, e)]). simpl.
  rewrite Map_set_fresh by done. rewrite Hreg. by rewrite <- app_assoc.
Qed.

Lemma owns_other_delete tok ids c t tok' :
  owns tok ids c t → tok' ≠ tok →
  owns tok ids c (mkTransport (Map_delete tok' (_pendingRequests t)) (onmessage t)).
Proof.
  intros (pre & p & post & Hreg & Hfresh & Hun & Hrest) Hne.
  exists (Map_delete tok' pre), p, (Map_delete tok' post). simpl.
  rewrite Hreg, Map_delete_app. simpl. rewrite bool_decide_false by congruence.
  repeat split; try apply Hrest; try done.
  - intros Hin. apply Hfresh. apply list_elem_of_fmap in Hin as ([k q] & -> & Hin).
    apply Map_delete_elem_of in Hin. apply list_elem_of_fmap. by exists (k, q).
  - intros i Hi k q Hin. apply (Hun i Hi k q). by apply Map_delete_elem_of in Hin.
Qed.

Lemma owns_handleMessages tok ids ms uuid c t :
  owns tok ids c t → uuid ∉ keys t →
  owns tok ids (c ++ collected_from ids (sends_of (handleMessages ms uuid t).2))
    (handleMessages ms uuid t).1.
Proof.
  intros Hown Hu. unfold handleMessages.
  destruct (forallb isNotification ms).
  - pose proof (owns_forward_all _ _ ms _ _ Hown) as H1.
    by destruct (forward_all ms t) as [t1 a1].
  - destruct (existsb isRequest ms); [|simpl; by rewrite app_nil_r].
    pose proof (owns_other_register _ _ _ _ uuid
                  (mkPending false [] (requestIds_of ms)) Hown Hu) as H0.
    pose proof (owns_forward_all _ _ ms _ _ H0) as H1.
    destruct (forward_all ms _) as [t1 a1]. simpl in *.
    rewrite sends_of_app. simpl. by rewrite app_nil_r.
Qed.

Lemma owns_handleRequest tok ids req uuid c t :
  owns tok ids c t → uuid ∉ keys t →
  owns tok ids (c ++ collected_from ids (sends_of (handleRequest req uuid t).2))
    (handleRequest req uuid t).1.
Proof.
  intros Hown Hu. unfold handleRequest, handlePostRequest.
  case_bool_decide; [|simpl; by rewrite app_nil_r].
  destruct (not_acceptable req); [simpl; by rewrite app_nil_r|].
  destruct (unsupported_media_type req); [simpl; by rewrite app_nil_r|].
  destruct (decode (req_body req)) as [e|ms]; [simpl; by rewrite app_nil_r|].
  by apply owns_handleMessages.
Qed.

Lemma owns_step tok ids e c t :
  owns tok ids c t →
  e ≠ EvResume tok → e ≠ EvTimer tok →
  fresh_uuids [e] t →
  owns tok ids (c ++ collected_from ids (sends_of (step e t).2)) (step e t).1.
Proof.
  intros Hown Hr Ht [Hf _]. destruct e as [req uuid|m|tok'|tok']; simpl.
  - by apply owns_handleRequest.
  - pose proof (owns_send _ _ _ m _ Hown) as H1. by rewrite sends_of_send.
  - destruct (Map_get tok' _) as [p|]; [|simpl; by rewrite app_nil_r].
    destruct (resolved p); simpl; rewrite app_nil_r; [|done].
    apply owns_other_delete; [done|congruence].
  - destruct (Map_get tok' _) as [p|]; [|simpl; by rewrite app_nil_r].
    destruct (resolved p); simpl; rewrite app_nil_r; [done|].
    apply owns_other_delete; [done|congruence].
Qed.

Lemma owns_run tok ids es : ∀ c t,
  owns tok ids c t → awaiting tok es → fresh_uuids es t →
  owns tok ids (c ++ collected_from ids (sends_of (run es t).2)) (run es t).1.
Proof.
  induction es as [|e es IH]; intros c t Hown Haw Hf; simpl.
  - by rewrite app_nil_r.
  - destruct Hf as [Hf1 Hf2].
    destruct (Haw e) as [Hr Ht]; [rewrite elem_of_cons; auto|].
    pose proof (owns_step _ _ e _ _ Hown Hr Ht (conj Hf1 I)) as H1.
    destruct (step e t) as [t1 a1]. simpl in *.
    assert (awaiting tok es) as Haw'.
    { intros e' He'. apply Haw. rewrite elem_of_cons. auto. }
    specialize (IH _ _ H1 Haw' Hf2).
    destruct (run es t1) as [t2 a2]. simpl in *.
    by rewrite sends_of_app, collected_from_app, app_assoc.
Qed.

(** ** Every registered entry resolves exactly at its count *)

Lemma Map_set_Forall {V} (P : string * V → Prop) k v (m : list (string * V)) :
  P (k, v) → Forall P m → Forall P (Map_set k v m).
Proof.
  intros Hv. induction 1 as [|[k' v'] m Hx Hm IH]; simpl.
  - by repeat constructor.
  - case_bool_decide; by constructor.
Qed.

Lemma Map_delete_Forall {V} (P : string * V → Prop) k (m : list (string * V)) :
  Forall P m → Forall P (Map_delete k m).
Proof.
  induction 1 as [|[k' v'] m Hx Hm IH]; simpl; [constructor|].
  case_bool_decide; [done|by constructor].
Qed.

Lemma registry_ok_send m t : registry_ok t → registry_ok (send m t).1.
Proof.
  intros Hok. destruct (isResponse m) eqn:Hr.
  - rewrite send_response by done. unfold registry_ok. simpl.
    eapply scan_rel_entry_ok; [apply send_scan_shape|done].
  - by rewrite send_not_response.
Qed.

Lemma registry_ok_send_all outs : ∀ t, registry_ok t → registry_ok (send_all outs t).1.
Proof.
  induction outs as [|m outs IH]; intros t Hok; simpl; [done|].
  pose proof (registry_ok_send m t Hok) as H1.
  destruct (send m t) as [t1 a1]. simpl in *. specialize (IH _ H1).
  by destruct (send_all outs t1).
Qed.

Lemma registry_ok_forward_all ms : ∀ t, registry_ok t → registry_ok (forward_all ms t).1.
Proof.
  induction ms as [|m ms IH]; intros t Hok; simpl; [done|].
  assert (registry_ok (forward m t).1) as H1.
  { unfold forward. destruct (onmessage t) as [h|]; [|done].
    pose proof (registry_ok_send_all (h m) t Hok). by destruct (send_all _ _). }
  destruct (forward m t) as [t1 a1]. simpl in *. specialize (IH _ H1).
  by destruct (forward_all ms t1).
Qed.

Lemma registry_ok_handleMessages ms uuid t :
  registry_ok t → registry_ok (handleMessages ms uuid t).1.
Proof.
  intros Hok. unfold handleMessages. destruct (forallb isNotification ms).
  - pose proof (registry_ok_forward_all ms t Hok). by destruct (forward_all _ _).
  - destruct (existsb isRequest ms) eqn:He; [|done].
    match goal with |- context [forward_all ms ?t1] =>
      assert (registry_ok t1) as H1 end.
    { apply Map_set_Forall; [|done]. unfold entry_ok. simpl.
      apply requestIds_of_nonempty in He. destruct (requestIds_of ms); [done|].
      simpl. split; [done|lia]. }
    pose proof (registry_ok_forward_all ms _ H1). by destruct (forward_all _ _).
Qed.

Lemma registry_ok_step e t : registry_ok t → registry_ok (step e t).1.
Proof.
  intros Hok. destruct e as [req uuid|m|tok|tok]; simpl.
  - unfold handleRequest, handlePostRequest. case_bool_decide; [|done].
    destruct (not_acceptable req); [done|].
    destruct (unsupported_media_type req); [done|].
    destruct (decode (req_body req)); [done|]. by apply registry_ok_handleMessages.
  - by apply registry_ok_send.
  - destruct (Map_get tok _) as [p|]; [|done]. destruct (resolved p); [|done].
    by apply Map_delete_Forall.
  - destruct (Map_get tok _) as [p|]; [|done]. destruct (resolved p); [done|].
    by apply Map_delete_Forall.
Qed.

Lemma registry_ok_run es : ∀ t, registry_ok t → registry_ok (run es t).1.
Proof.
  induction es as [|e es IH]; intros t Hok; simpl; [done|].
  pose proof (registry_ok_step e t Hok) as H1.
  destruct (step e t) as [t1 a1]. simpl in *. specialize (IH _ H1).
  by destruct (run es t1).
Qed.

(** ** A registered batch stays registered until its call continues *)

Lemma scan_rel_lookup i m tok l l' p :
  Forall2 (scan_rel i m) l l' →
  Map_get tok l = Some p →
  ∃ p', Map_get tok l' = Some p' ∧ (p' = p ∨ p' = collect m p).
Proof.
  induction 1 as [|[k q] [k' q'] l l' [Hk Hq] _ IH]; simpl; [done|].
  simpl in *. subst k'. case_bool_decide.
  - intros [= ->]. exists q'. split; [done|]. destruct Hq as [->|[_ ->]]; auto.
  - done.
Qed.

Lemma send_lookup m tok t p :
  Map_get tok (_pendingRequests t) = Some p →
  ∃ p', Map_get tok (_pendingRequests (send m t).1) = Some p'
        ∧ (p' = p ∨ p' = collect m p).
Proof.
  intros Hget. destruct (isResponse m) eqn:Hr.
  - rewrite send_response by done. simpl.
    eapply scan_rel_lookup; [apply send_scan_shape|done].
  - rewrite send_not_response by done. eauto.
Qed.

Lemma registered_send tok ids m t :
  registered tok ids t → registered tok ids (send m t).1.
Proof.
  intros (p & Hget & Hids).
  destruct (send_lookup m _ _ _ Hget) as (p' & Hp' & [->| ->]);
    eexists; split; done.
Qed.

Lemma registered_send_all tok ids outs : ∀ t,
  registered tok ids t → registered tok ids (send_all outs t).1.
Proof.
  induction outs as [|m outs IH]; intros t Hreg; simpl; [done|].
  pose proof (registered_send _ _ m _ Hreg) as H1.
  destruct (send m t) as [t1 a1]. simpl in *. specialize (IH _ H1).
  by destruct (send_all outs t1).
Qed.

Lemma registered_forward_all tok ids ms : ∀ t,
  registered tok ids t → registered tok ids (forward_all ms t).1.
Proof.
  induction ms as [|m ms IH]; intros t Hreg; simpl; [done|].
  assert (registered tok ids (forward m t).1) as H1.
  { unfold forward. destruct (onmessage t) as [h|]; [|done].
    pose proof (registered_send_all _ _ (h m) t Hreg). by destruct (send_all _ _). }
  destruct (forward m t) as [t1 a1]. simpl in *. specialize (IH _ H1).
  by destruct (forward_all ms t1).
Qed.

Lemma registered_step tok ids e t :
  registered tok ids t →
  e ≠ EvResume tok → e ≠ EvTimer tok →
  fresh_uuids [e] t →
  registered tok ids (step e t).1.
Proof.
  intros Hreg Hr Ht [Hf _]. destruct e as [req uuid|m|tok'|tok']; simpl.
  - unfold handleRequest, handlePostRequest. case_bool_decide; [|done].
    destruct (not_acceptable req); [done|].
    destruct (unsupported_media_type req); [done|].
    destruct (decode (req_body req)) as [e|ms]; [done|].
    unfold handleMessages. destruct (forallb isNotification ms).
    + pose proof (registered_forward_all _ _ ms t Hreg). by destruct (forward_all _ _).
    + destruct (existsb isRequest ms); [|done].
      match goal with |- context [forward_all ms ?t1] =>
        assert (registered tok ids t1) as H1 end.
      { destruct Hreg as (p & Hget & Hids). exists p. split; [|done]. simpl.
        rewrite Map_get_set_ne; [done|]. intros ->.
        apply Hf. by eapply Map_get_keys. }
      pose proof (registered_forward_all _ _ ms _ H1). by destruct (forward_all _ _).
  - by apply registered_send.
  - destruct (Map_get tok' _) as [p'|] eqn:Hg; [|done].
    destruct (resolved p'); [|done]. destruct Hreg as (p & Hget & Hids).
    exists p. split; [|done]. simpl. rewrite Map_get_delete_ne; [done|congruence].
  - destruct (Map_get tok' _) as [p'|] eqn:Hg; [|done].
    destruct (resolved p'); [done|]. destruct Hreg as (p & Hget & Hids).
    exists p. split; [|done]. simpl. rewrite Map_get_delete_ne; [done|congruence].
Qed.

Lemma registered_run tok ids es : ∀ t,
  registered tok ids t → awaiting tok es → fresh_uuids es t →
  registered tok ids (run es t).1.
Proof.
  induction es as [|e es IH]; intros t Hreg Haw Hf; simpl; [done|].
  destruct Hf as [Hf1 Hf2].
  destruct (Haw e) as [Hr Ht]; [rewrite elem_of_cons; auto|].
  pose proof (registered_step _ _ e _ Hreg Hr Ht (conj Hf1 I)) as H1.
  destruct (step e t) as [t1 a1]. simpl in *.
  assert (awaiting tok es) as Haw'.
  { intros e' He'. apply Haw. rewrite elem_of_cons. auto. }
  specialize (IH _ H1 Haw' Hf2). by destruct (run es t1).
Qed.

(** ** Classification *)

Lemma accepted_handlePostRequest req uuid t msgs :
  accepted req = Some msgs →
  handlePostRequest req uuid t = handleMessages msgs uuid t.
Proof.
  unfold accepted, handlePostRequest.
  destruct (not_acceptable req); [done|].
  destruct (unsupported_media_type req); [done|]. simpl.
  destruct (decode (req_body req)); [done|]. by intros [= ->].
Qed.

Lemma request_not_notification ms :
  existsb isRequest ms = true → forallb isNotification ms = false.
Proof.
  induction ms as [|m ms IH]; simpl; [done|].
  rewrite orb_true_iff, andb_false_iff. intros [Hm|Hms]; [left|right; auto].
  unfold isRequest, isNotification in *. by destruct m.
Qed.

Lemma request_bearing msgs uuid t :
  existsb isRequest msgs = true →
  handleMessages msgs uuid t =
    let entry := mkPending false [] (requestIds_of msgs) in
    let t1 := mkTransport (Map_set uuid entry (_pendingRequests t)) (onmessage t) in
    ((forward_all msgs t1).1,
     PendingSet uuid entry :: (forward_all msgs t1).2 ++ [SetTimeout TIMEOUT_MS]).
Proof.
  intros He. unfold handleMessages.
  rewrite (request_not_notification _ He), He. simpl.
  by destruct (forward_all msgs _).
Qed.

(** ** Counting the responses of distinct identifiers *)

Lemma claimed_cons i ids m :
  claimed (i :: ids) m = answers i m || claimed ids m.
Proof.
  unfold claimed, answers, includes_id. destruct (isResponse m); simpl; [|done].
  apply eq_true_iff_eq.
  rewrite orb_true_iff, !bool_decide_eq_true, elem_of_cons. done.
Qed.

Lemma answers_not_claimed i ids m :
  i ∉ ids → answers i m = true → claimed ids m = false.
Proof.
  unfold claimed, answers, includes_id.
  rewrite andb_true_iff, bool_decide_eq_true. intros Hi [-> <-].
  simpl. by rewrite bool_decide_false.
Qed.

Lemma length_collected_cons i ids sent :
  i ∉ ids →
  length (collected_from (i :: ids) sent) =
    (length (filter (fun m => answers i m = true) sent)
     + length (collected_from ids sent))%nat.
Proof.
  intros Hi. unfold collected_from.
  induction sent as [|m sent IH]; [done|].
  rewrite !filter_cons, claimed_cons.
  destruct (answers i m) eqn:Ha.
  - rewrite (answers_not_claimed _ _ _ Hi Ha). simpl.
    repeat case_decide; try done. simpl. by rewrite IH.
  - simpl. repeat case_decide; try done; simpl; rewrite IH; lia.
Qed.

Lemma length_collected_distinct ids sent :
  NoDup ids →
  (∀ i, i ∈ ids → length (filter (fun m => answers i m = true) sent) = 1%nat) →
  length (collected_from ids sent) = length ids.
Proof.
  induction 1 as [|i ids Hi Hnd IH]; intros Hone.
  - clear Hone. unfold collected_from, claimed, includes_id.
    induction sent as [|m sent IHs]; [done|].
    rewrite filter_cons_False; [done|].
    rewrite bool_decide_false by apply not_elem_of_nil. by rewrite andb_false_r.
  - rewrite length_collected_cons by done.
    rewrite Hone by (rewrite elem_of_cons; auto).
    rewrite IH; [done|]. intros j Hj. apply Hone. rewrite elem_of_cons. auto.
Qed.

(** ** The correlation path: messages that match nothing *)

(** C5: a message passed to [send] that is not a response (it has no id, or
    neither a result nor an error), or whose identifier no registered batch
    expects, leaves the transport as it is: nothing is pushed, no batch is
    resolved, and [send] returns normally. *)
Theorem send_unmatched_is_noop (message : JSONRPCMessage) (t : RestServerTransport) :
  in_id message = false
  ∨ (in_result message = false ∧ in_error message = false)
  ∨ unexpected (String_msg_id message) (_pendingRequests t) →
  send message t = (t, [SendCall message]).
Proof.
  intros [Hid|[[Hres Herr]|Hun]].
  - apply send_not_response. unfold isResponse. by rewrite Hid.
  - apply send_not_response. unfold isResponse. rewrite Hres, Herr.
    by rewrite andb_false_r.
  - destruct (isResponse message) eqn:Hr; [|by apply send_not_response].
    rewrite send_response by done. rewrite send_scan_unexpected by done.
    by destruct t.
Qed.

Lemma send_unmatched_is_noop_witness :
  unexpected (String_msg_id (pong "7")) (_pendingRequests one_batch)
  ∧ send (pong "7") one_batch = (one_batch, [SendCall (pong "7")]).
Proof.
  assert (unexpected (String_msg_id (pong "7")) (_pendingRequests one_batch)) as Hun.
  { intros k q Hin. apply list_elem_of_singleton in Hin as [= -> ->].
    simpl. by apply (bool_decide_eq_false_1 _). }
  split; [exact Hun|].
  apply send_unmatched_is_noop. right. right. exact Hun.
Defined.

(** ** Notification-only and unclassified bodies *)



(** C9: a POST that passes the header checks and decodes to at least one
    message, none of them a request and not all of them notifications, ends
    without any action: no status or body is written, nothing is forwarded
    to the handler, and the transport is unchanged. *)
Theorem unclassified_body_is_dropped (req : IncomingMessage) (uuid : string)
    (t : RestServerTransport) (msgs : list JSONRPCMessage) :
  accepted req = Some msgs →
  msgs ≠ [] →
  existsb isRequest msgs = false →
  forallb isNotification msgs = false →
  handlePostRequest req uuid t = (t, []).
Proof.
  intros Hacc _ Hreq Hnot. rewrite (accepted_handlePostRequest _ _ _ _ Hacc).
  unfold handleMessages. by rewrite Hnot, Hreq.
Qed.

Lemma unclassified_body_is_dropped_witness :
  accepted (json_post (DecodedArray [notify; pong "1"])) = Some [notify; pong "1"]
  ∧ [notify; pong "1"] ≠ []
  ∧ existsb isRequest [notify; pong "1"] = false
  ∧ forallb isNotification [notify; pong "1"] = false
  ∧ handlePostRequest (json_post (DecodedArray [notify; pong "1"])) "u1"
      (initial (Some echo_handler))
    = (initial (Some echo_handler), []).
Proof.
  split; [reflexivity|]. split; [discriminate|].
  split; [reflexivity|]. split; [reflexivity|].
  apply (unclassified_body_is_dropped _ _ _ [notify; pong "1"]);
    [reflexivity|discriminate|reflexivity|reflexivity].
Defined.

(** ** Registration comes first *)



Lemma internal_timers acts :
  Forall (fun a => is_internal a = true) acts → timers_of acts = [].
Proof.
  induction 1 as [|a l Ha _ IH]; [done|]. unfold timers_of in *.
  by destruct a.
Qed.

(** ** The call with its [catch] clause *)

Section CatchingLemmas.
Variable throws : Thrower.

Lemma thrown_forward m m' t : thrown throws (forward m t).1 m' = thrown throws t m'.
Proof.
  unfold thrown. destruct (forward_facts m t) as (_ & Ho & _). by rewrite Ho.
Qed.

(** Without exception the loop is [forward_all]. *)
Lemma forward_all_catching_quiet ms : ∀ t,
  quiet throws t ms → forward_all_catching throws ms t = (forward_all ms t, None).
Proof.
  induction ms as [|m ms IH]; intros t Hq; simpl; [done|].
  pose proof (fun m' => thrown_forward m m' t) as Hth.
  destruct (forward m t) as [t1 a1]. simpl in Hth.
  rewrite (Hq m) by left. rewrite IH.
  - by destruct (forward_all ms t1).
  - intros m' Hm'. rewrite Hth. apply Hq. by right.
Qed.

(** A loop that ends without exception met none. *)
Lemma forward_all_catching_none ms : ∀ t,
  (forward_all_catching throws ms t).2 = None → quiet throws t ms.
Proof.
  induction ms as [|m ms IH]; intros t Hnone m' Hin; simpl in *.
  { by apply elem_of_nil in Hin. }
  pose proof (fun m' => thrown_forward m m' t) as Hth.
  destruct (forward m t) as [t1 a1]. simpl in Hth.
  destruct (thrown throws t m) as [e|] eqn:He; [done|].
  apply elem_of_cons in Hin as [->|Hin]; [done|].
  rewrite <- Hth. apply IH; [|done].
  by destruct (forward_all_catching throws ms t1) as [[t2 a2] r].
Qed.

(** In any case the loop is [forward_all] on the messages up to the one on
    which the handler throws. *)
Lemma forward_all_catching_prefix ms : ∀ t,
  ∃ ms', ms' `prefix_of` ms
    ∧ (forward_all_catching throws ms t).1 = forward_all ms' t
    ∧ match (forward_all_catching throws ms t).2 with
      | None => ms' = ms
      | Some e => ∃ pre m, ms' = pre ++ [m] ∧ thrown throws t m = Some e
      end.
Proof.
  induction ms as [|m ms IH]; intros t; simpl.
  { exists []. by repeat split. }
  pose proof (fun m' => thrown_forward m m' t) as Hth.
  destruct (forward m t) as [t1 a1] eqn:Hf. simpl in Hth.
  destruct (thrown throws t m) as [e|] eqn:He.
  - exists [m]. split; [by exists ms|]. simpl. rewrite Hf, app_nil_r.
    split; [done|]. by exists [], m.
  - destruct (IH t1) as (ms' & Hpre & Heq & Hr).
    destruct (forward_all_catching throws ms t1) as [[t2 a2] r]. simpl in *.
    exists (m :: ms'). split; [by apply prefix_cons|]. simpl.
    rewrite Hf, <- Heq. split; [done|]. destruct r as [e|]; [|by subst].
    destruct Hr as (pre & m' & -> & Hm'). exists (m :: pre), m'.
    split; [done|]. by rewrite <- Hth.
Qed.

(** The state and the calls of [send] of a request are those of the
    forwarding loop on some messages, after the registration if there is
    one. *)
Lemma handleRequest_catching_shape req uuid t :
  ∃ ms' t0,
    (t0 = t
     ∨ ∃ ids, t0 = mkTransport (Map_set uuid (mkPending false [] ids)
                                   (_pendingRequests t)) (onmessage t))
    ∧ (handleRequest_catching throws req uuid t).1.1 = (forward_all ms' t0).1
    ∧ sends_of (handleRequest_catching throws req uuid t).1.2 =
        sends_of (forward_all ms' t0).2.
Proof.
  assert (∀ acts st, sends_of acts = [] →
            ∃ ms' t0,
              (t0 = t
               ∨ ∃ ids, t0 = mkTransport (Map_set uuid (mkPending false [] ids)
                                             (_pendingRequests t)) (onmessage t))
              ∧ ((t, acts, st) : RestServerTransport * list Action * CallStatus).1.1
                = (forward_all ms' t0).1
              ∧ sends_of (t, acts, st).1.2 = sends_of (forward_all ms' t0).2) as Hnone.
  { intros acts st Hacts. exists [], t. by repeat split; auto. }
  unfold handleRequest_catching, handlePostRequest_catching.
  case_bool_decide; [|by apply Hnone].
  destruct (not_acceptable req); [by apply Hnone|].
  destruct (unsupported_media_type req); [by apply Hnone|].
  destruct (decode (req_body req)) as [e|ms]; [by apply Hnone|].
  unfold handleMessages_catching. destruct (forallb isNotification ms).
  - destruct (forward_all_catching_prefix ms t) as (ms' & _ & Heq & _).
    destruct (forward_all_catching throws ms t) as [[t1 a1] r]. simpl in *.
    exists ms', t. rewrite <- Heq. by repeat split; auto.
  - destruct (existsb isRequest ms); [|by apply Hnone].
    match goal with |- context [forward_all_catching throws ms ?t1] =>
      destruct (forward_all_catching_prefix ms t1) as (ms' & _ & Heq & _);
      exists ms', t1;
      destruct (forward_all_catching throws ms t1) as [[t2 a2] r] end.
    simpl in *. rewrite <- Heq. split; [right; by eexists|].
    destruct r; simpl; rewrite !sends_of_app; simpl; by rewrite app_nil_r.
Qed.

(** A request whose handler does not throw is the request of [handleRequest]. *)
Lemma handleRequest_catching_quiet req uuid t :
  (∀ msgs, accepted req = Some msgs → quiet throws t msgs) →
  (handleRequest_catching throws req uuid t).1 = handleRequest req uuid t.
Proof.
  intros Hq. unfold handleRequest_catching, handleRequest.
  case_bool_decide; [|done].
  unfold handlePostRequest_catching, handlePostRequest.
  revert Hq. unfold accepted.
  destruct (not_acceptable req); [done|].
  destruct (unsupported_media_type req); [done|]. simpl.
  destruct (decode (req_body req)) as [e|ms]; [done|]. intros Hq.
  specialize (Hq ms eq_refl).
  unfold handleMessages_catching, handleMessages.
  destruct (forallb isNotification ms).
  - rewrite forward_all_catching_quiet by done. by destruct (forward_all ms t).
  - destruct (existsb isRequest ms); [|done].
    rewrite forward_all_catching_quiet by done. by destruct (forward_all ms _).
Qed.

(** A request-bearing call whose handler does not throw reaches its race. *)
Lemma advance_post_quiet req tok s msgs :
  req_method req = "POST" →
  accepted req = Some msgs →
  existsb isRequest msgs = true →
  quiet throws (session_transport s) msgs →
  advance throws (EvPost req tok) s =
    (mkSession (handleMessages msgs tok (session_transport s)).1
       (suspended s ++ [tok]),
     (handleMessages msgs tok (session_transport s)).2).
Proof.
  intros Hpost Hacc Hreq Hq. cbn [advance].
  unfold handleRequest_catching, handlePostRequest_catching.
  rewrite bool_decide_true by done. revert Hacc. unfold accepted.
  destruct (not_acceptable req); [done|].
  destruct (unsupported_media_type req); [done|]. simpl.
  destruct (decode (req_body req)) as [e|ms]; [done|]. intros [= ->].
  unfold handleMessages_catching, handleMessages.
  rewrite (request_not_notification _ Hreq), Hreq.
  rewrite forward_all_catching_quiet by done. by destruct (forward_all msgs _).
Qed.


Lemma owns_advance tok ids e c s :
  owns tok ids c (session_transport s) →
  e ≠ EvResume tok → e ≠ EvTimer tok →
  fresh_tokens throws [e] s →
  owns tok ids (c ++ collected_from ids (sends_of (advance throws e s).2))
    (session_transport (advance throws e s).1).
Proof.
  intros Hown Hr Ht [Hf _].
  assert (∀ tok' rs, tok' ≠ tok →
            owns tok ids (c ++ collected_from ids (sends_of (continue tok' rs s).2))
              (session_transport (continue tok' rs s).1)) as Hcont.
  { intros tok' rs Hne. unfold continue. simpl. rewrite app_nil_r.
    by apply owns_other_delete. }
  destruct e as [req uuid|m|tok'|tok']; cbn [advance].
  - destruct (handleRequest_catching_shape req uuid (session_transport s))
      as (ms' & t0 & Ht0 & Hst & Hsends).
    destruct (handleRequest_catching throws req uuid (session_transport s))
      as [[t1 a1] st]. simpl in *. rewrite Hst, Hsends.
    apply owns_forward_all. destruct Ht0 as [->|[ids' ->]]; [done|].
    by apply owns_other_register.
  - pose proof (owns_send _ _ _ m _ Hown) as H1.
    pose proof (sends_of_send m (session_transport s)) as H2.
    destruct (send m (session_transport s)) as [t1 a1]. simpl in *.
    by rewrite H2.
  - case_bool_decide; [|simpl; by rewrite app_nil_r].
    destruct (Map_get tok' _) as [p|]; [|simpl; by rewrite app_nil_r].
    destruct (resolved p); [|simpl; by rewrite app_nil_r].
    apply Hcont. congruence.
  - case_bool_decide; [|simpl; by rewrite app_nil_r].
    destruct (Map_get tok' _) as [p|]; [|apply Hcont; congruence].
    destruct (resolved p); [simpl; by rewrite app_nil_r|].
    apply Hcont. congruence.
Qed.

Lemma owns_play tok ids es : ∀ c s,
  owns tok ids c (session_transport s) → awaiting tok es →
  fresh_tokens throws es s →
  owns tok ids (c ++ collected_from ids (sends_of (play throws es s).2))
    (session_transport (play throws es s).1).
Proof.
  induction es as [|e es IH]; intros c s Hown Haw Hf; simpl.
  - by rewrite app_nil_r.
  - destruct Hf as [Hf1 Hf2].
    destruct (Haw e) as [Hr Ht]; [rewrite elem_of_cons; auto|].
    pose proof (owns_advance _ _ e _ _ Hown Hr Ht (conj Hf1 I)) as H1.
    destruct (advance throws e s) as [s1 a1]. simpl in *.
    assert (awaiting tok es) as Haw'.
    { intros e' He'. apply Haw. rewrite elem_of_cons. auto. }
    specialize (IH _ _ H1 Haw' Hf2).
    destruct (play throws es s1) as [s2 a2]. simpl in *.
    by rewrite sends_of_app, collected_from_app, app_assoc.
Qed.




Lemma leave_other tok tok' calls :
  tok ∈ calls → tok' ≠ tok → tok ∈ leave tok' calls.
Proof.
  intros Hin Hne. induction calls as [|k calls IH]; simpl; [done|].
  apply elem_of_cons in Hin as [->|Hin].
  - rewrite bool_decide_false by congruence. by left.
  - case_bool_decide; [done|]. right. by apply IH.
Qed.

(** A suspended call stays suspended until it continues. *)
Lemma suspended_advance tok e s :
  tok ∈ suspended s →
  e ≠ EvResume tok → e ≠ EvTimer tok →
  tok ∈ suspended (advance throws e s).1.
Proof.
  intros Hin Hr Ht. destruct e as [req uuid|m|tok'|tok']; cbn [advance].
  - destruct (handleRequest_catching throws req uuid (session_transport s))
      as [[t1 a1] st]. simpl. destruct st; [done| |done].
    apply elem_of_app. by left.
  - by destruct (send m (session_transport s)).
  - case_bool_decide; [|done].
    destruct (Map_get tok' _) as [p|]; [|done].
    destruct (resolved p); [|done]. simpl. apply leave_other; [done|congruence].
  - case_bool_decide; [|done].
    destruct (Map_get tok' _) as [p|];
      [destruct (resolved p); [done|]|];
      (simpl; apply leave_other; [done|congruence]).
Qed.

Lemma suspended_play tok es : ∀ s,
  tok ∈ suspended s → awaiting tok es → tok ∈ suspended (play throws es s).1.
Proof.
  induction es as [|e es IH]; intros s Hin Haw; simpl; [done|].
  destruct (Haw e) as [Hr Ht]; [rewrite elem_of_cons; auto|].
  pose proof (suspended_advance _ e _ Hin Hr Ht) as H1.
  destruct (advance throws e s) as [s1 a1]. simpl in *.
  assert (awaiting tok es) as Haw'.
  { intros e' He'. apply Haw. rewrite elem_of_cons. auto. }
  specialize (IH _ H1 Haw'). by destruct (play throws es s1).
Qed.

End CatchingLemmas.

(** ** Timeout *)




(** ** The body of the answer *)

(** C6, amended: the body follows the value the race settled with.  When the
    call resumes because [resolve] was called, the body is the single
    response if the batch holds exactly one and the sequence of the held
    responses otherwise; [send] pushes at the end, so the sequence is in
    arrival order.  When the timer settles the race, the body is the empty
    sequence whatever the batch holds. *)
Theorem body_follows_race_result (t : RestServerTransport) (tok : string)
    (p : PendingRequest) :
  Map_get tok (_pendingRequests t) = Some p →
  (resolved p = true →
     (step (EvResume tok) t).2 =
       [PendingDelete tok; WriteHead 200 JSON_HEADERS;
        ResEnd (Some (responseBody (responseMessages p)))])
  ∧ (∀ r, responseMessages p = [r] → responseBody (responseMessages p) = BodyMessage r)
  ∧ (length (responseMessages p) ≠ 1%nat →
       responseBody (responseMessages p) = BodyMessages (responseMessages p))
  ∧ (∀ m, ∃ p',
       Map_get tok (_pendingRequests (send m t).1) = Some p'
       ∧ (responseMessages p' = responseMessages p
          ∨ responseMessages p' = responseMessages p ++ [m]))
  ∧ (resolved p = false →
       (step (EvTimer tok) t).2 =
         [PendingDelete tok; WriteHead 200 JSON_HEADERS;
          ResEnd (Some (BodyMessages []))]).
Proof.
  intros Hget. repeat split.
  - intros Hres. simpl. by rewrite Hget, Hres.
  - by intros r ->.
  - destruct (responseMessages p) as [|r [|r' l]]; simpl; done.
  - intros m. destruct (send_lookup m _ _ _ Hget) as (p' & Hp' & Hor).
    exists p'. split; [done|]. destruct Hor as [->| ->]; auto.
  - intros Hres. simpl. by rewrite Hget, Hres.
Qed.

Lemma body_follows_race_result_witness :
  Map_get "b1"
    (_pendingRequests
       (mkTransport [("b1", mkPending true [pong "2"; pong "1"] ["1"; "2"])] None))
  = Some (mkPending true [pong "2"; pong "1"] ["1"; "2"])
  ∧ (step (EvResume "b1")
       (mkTransport [("b1", mkPending true [pong "2"; pong "1"] ["1"; "2"])] None)).2 =
      [PendingDelete "b1"; WriteHead 200 JSON_HEADERS;
       ResEnd (Some (BodyMessages [pong "2"; pong "1"]))].
Proof.
  split; [reflexivity|].
  apply (body_follows_race_result
           (mkTransport [("b1", mkPending true [pong "2"; pong "1"] ["1"; "2"])] None)
           "b1" (mkPending true [pong "2"; pong "1"] ["1"; "2"]));
    reflexivity.
Defined.

(** C6 as stated fails: two requests, one response collected, then the
    timer.  Exactly one response was collected, and the body is the empty
    sequence, not that response. *)
Lemma timeout_drops_collected_response :
  responseMessages
    <$> Map_get "b1"
          (_pendingRequests
             (run [EvPost (json_post (DecodedArray [ping "1"; ping "2"])) "b1";
                   EvSend (pong "1")] (initial None)).1)
  = Some [pong "1"]
  ∧ (run [EvPost (json_post (DecodedArray [ping "1"; ping "2"])) "b1";
          EvSend (pong "1"); EvTimer "b1"] (initial None)).2 =
      [PendingSet "b1" (mkPending false [] ["1"; "2"]); SetTimeout 30000;
       SendCall (pong "1");
       PendingDelete "b1"; WriteHead 200 JSON_HEADERS;
       ResEnd (Some (BodyMessages []))]
  ∧ Some (BodyMessages []) ≠ Some (BodyMessage (pong "1")).
Proof. split; [reflexivity|]. split; [reflexivity|discriminate]. Qed.

(** ** A call whose identifiers are distinct and its own *)

(** From the POST to any later moment before the call continues, the batch
    holds the responses sent so far that bear its identifiers, in the order
    of the calls of [send]. *)
Lemma call_owns throws req tok s msgs es :
  req_method req = "POST" →
  accepted req = Some msgs →
  existsb isRequest msgs = true →
  quiet throws (session_transport s) msgs →
  tok ∉ keys (session_transport s) →
  (∀ i, i ∈ requestIds_of msgs →
        unexpected i (_pendingRequests (session_transport s))) →
  awaiting tok es →
  fresh_tokens throws es (advance throws (EvPost req tok) s).1 →
  owns tok (requestIds_of msgs)
    (collected_from (requestIds_of msgs)
       (sends_of (play throws (EvPost req tok :: es) s).2))
    (session_transport (play throws (EvPost req tok :: es) s).1)
  ∧ tok ∈ suspended (play throws (EvPost req tok :: es) s).1.
Proof.
  intros Hpost Hacc Hreq Hq Hfresh Hun Haw Hf.
  pose proof (owns_register tok (requestIds_of msgs) _ Hfresh Hun
                (requestIds_of_nonempty _ Hreq)) as H0.
  apply (owns_forward_all _ _ msgs) in H0.
  cbn [play]. revert Hf.
  rewrite (advance_post_quiet throws _ tok s _ Hpost Hacc Hreq Hq).
  rewrite (request_bearing _ _ _ Hreq). cbv zeta.
  destruct (forward_all msgs _) as [t1 a1]. cbn [fst snd] in *.
  intros Hf.
  pose proof (owns_play throws _ _ es _ (mkSession t1 (suspended s ++ [tok]))
                H0 Haw Hf) as H1.
  assert (tok ∈ suspended (mkSession t1 (suspended s ++ [tok]))) as H2.
  { simpl. apply elem_of_app. right. by left. }
  pose proof (suspended_play throws _ es _ H2 Haw) as H3.
  destruct (play throws es _) as [s2 a2]. cbn [fst snd] in *.
  split; [|done]. rewrite app_nil_l in H1.
  replace (sends_of ((PendingSet tok (mkPending false [] (requestIds_of msgs))
                        :: a1 ++ [SetTimeout TIMEOUT_MS]) ++ a2))
    with (sends_of a1 ++ sends_of a2); [by rewrite collected_from_app|].
  rewrite !sends_of_app. simpl. by rewrite sends_of_app, app_nil_r.
Qed.

(** C1, amended: take a request-bearing call during which no invocation of
    the handler throws, whose request identifiers are pairwise distinct as
    strings and are expected by no batch registered before it.  If, between
    its POST and its continuation, every one of its identifiers is borne by
    exactly one response passed to [send], then [resolve] has been called,
    and the call answers [200] with exactly the responses bearing its
    identifiers, in the order they were sent (the single response when there
    is one); the entry is then gone. *)
Theorem distinct_ids_collect_all (throws : Thrower) (req : IncomingMessage)
    (tok : string) (s : Session) (msgs : list JSONRPCMessage) (es : list Event) :
  req_method req = "POST" →
  accepted req = Some msgs →
  existsb isRequest msgs = true →
  quiet throws (session_transport s) msgs →
  NoDup (requestIds_of msgs) →
  tok ∉ keys (session_transport s) →
  (∀ i, i ∈ requestIds_of msgs →
        unexpected i (_pendingRequests (session_transport s))) →
  awaiting tok es →
  fresh_tokens throws es (advance throws (EvPost req tok) s).1 →
  (∀ i, i ∈ requestIds_of msgs →
     length (filter (fun m => answers i m = true)
               (sends_of (play throws (EvPost req tok :: es) s).2)) = 1%nat) →
  (advance throws (EvResume tok) (play throws (EvPost req tok :: es) s).1).2 =
    [PendingDelete tok; WriteHead 200 JSON_HEADERS;
     ResEnd (Some (responseBody
                     (collected_from (requestIds_of msgs)
                        (sends_of (play throws (EvPost req tok :: es) s).2))))]
  ∧ Map_get tok
      (_pendingRequests
         (session_transport
            (advance throws (EvResume tok)
               (play throws (EvPost req tok :: es) s).1).1)) = None
  ∧ length (collected_from (requestIds_of msgs)
              (sends_of (play throws (EvPost req tok :: es) s).2))
    = length (requestIds_of msgs)
  ∧ ∀ m, m ∈ collected_from (requestIds_of msgs)
               (sends_of (play throws (EvPost req tok :: es) s).2)
         ↔ m ∈ sends_of (play throws (EvPost req tok :: es) s).2
           ∧ isResponse m = true
           ∧ String_msg_id m ∈ requestIds_of msgs.
Proof.
  intros Hpost Hacc Hreq Hq Hnd Hfresh Hun Haw Hf Hone.
  pose proof (call_owns throws _ _ _ _ _ Hpost Hacc Hreq Hq Hfresh Hun Haw Hf)
    as [Hown Hsus].
  pose proof (length_collected_distinct _ _ Hnd Hone) as Hlen.
  apply owns_lookup in Hown as (p & Hget & Hids & Hc & Hok).
  assert (resolved p = true) as Hres.
  { apply Hok. rewrite Hids, Hc, Hlen. done. }
  generalize dependent (play throws (EvPost req tok :: es) s).
  intros [s2 a2]. cbn [fst snd advance].
  intros Hone Hget Hc Hsus Hlen.
  rewrite bool_decide_true, Hget, Hres by done. unfold continue. simpl.
  split; [by rewrite Hc|]. split; [apply Map_get_delete|]. split; [done|].
  intros m. unfold collected_from. rewrite list_elem_of_filter.
  unfold claimed, includes_id. rewrite andb_true_iff, bool_decide_eq_true.
  tauto.
Qed.

Lemma distinct_ids_collect_all_witness :
  quiet never_throws (session_transport (opened (Some silent_handler)))
    [ping "1"; ping "2"]
  ∧ NoDup (requestIds_of [ping "1"; ping "2"])
  ∧ (∀ i, i ∈ requestIds_of [ping "1"; ping "2"] →
       length (filter (fun m => answers i m = true)
                 (sends_of
                    (play never_throws
                       [EvPost (json_post (DecodedArray [ping "1"; ping "2"])) "b1";
                        EvSend (pong "2"); EvSend notify; EvSend (pong "1")]
                       (opened (Some silent_handler))).2)) = 1%nat)
  ∧ (advance never_throws (EvResume "b1")
       (play never_throws
          [EvPost (json_post (DecodedArray [ping "1"; ping "2"])) "b1";
           EvSend (pong "2"); EvSend notify; EvSend (pong "1")]
          (opened (Some silent_handler))).1).2 =
      [PendingDelete "b1"; WriteHead 200 JSON_HEADERS;
       ResEnd (Some (BodyMessages [pong "2"; pong "1"]))].
Proof.
  assert (quiet never_throws (session_transport (opened (Some silent_handler)))
            [ping "1"; ping "2"]) as Hq by done.
  assert (NoDup (requestIds_of [ping "1"; ping "2"])) as Hnd.
  { by apply (bool_decide_unpack _). }
  assert (∀ i, i ∈ requestIds_of [ping "1"; ping "2"] →
       length (filter (fun m => answers i m = true)
                 (sends_of
                    (play never_throws
                       [EvPost (json_post (DecodedArray [ping "1"; ping "2"])) "b1";
                        EvSend (pong "2"); EvSend notify; EvSend (pong "1")]
                       (opened (Some silent_handler))).2)) = 1%nat) as Hone.
  { intros i Hi. change (i ∈ ["1"; "2"]) in Hi.
    rewrite !elem_of_cons, elem_of_nil in Hi. by destruct Hi as [->|[->|[]]]. }
  split; [exact Hq|]. split; [exact Hnd|]. split; [exact Hone|].
  apply (distinct_ids_collect_all never_throws
           (json_post (DecodedArray [ping "1"; ping "2"])) "b1"
           (opened (Some silent_handler))
           [ping "1"; ping "2"] [EvSend (pong "2"); EvSend notify; EvSend (pong "1")]);
    try reflexivity; try assumption.
  - apply not_elem_of_nil.
  - intros i _ k q Hin. by apply elem_of_nil in Hin.
  - intros e He. rewrite !elem_of_cons, elem_of_nil in He.
    by destruct He as [->|[->|[->|[]]]].
  - simpl. tauto.
Defined.

(** C1 as stated fails in two ways.  First, two requests of one call share
    an identifier: the only expected identifier gets its one response, the
    count of two is not reached, the call cannot resume and its timer gives
    the empty sequence.  Second, an earlier batch expects the same
    identifier: the one response goes to that batch, and the later call
    ends by its timer with the empty sequence. *)
Lemma one_response_per_identifier_not_enough :
  ((∀ i, i ∈ requestIds_of [ping "1"; ping "1"] →
      length (filter (fun m => answers i m = true)
                (sends_of (run [EvPost (json_post (DecodedArray [ping "1"; ping "1"])) "b1";
                                EvSend (pong "1")] (initial None)).2)) = 1%nat)
   ∧ (step (EvResume "b1")
        (run [EvPost (json_post (DecodedArray [ping "1"; ping "1"])) "b1";
              EvSend (pong "1")] (initial None)).1).2 = []
   ∧ (step (EvTimer "b1")
        (run [EvPost (json_post (DecodedArray [ping "1"; ping "1"])) "b1";
              EvSend (pong "1")] (initial None)).1).2 =
       [PendingDelete "b1"; WriteHead 200 JSON_HEADERS;
        ResEnd (Some (BodyMessages []))])
  ∧ ((∀ i, i ∈ requestIds_of [ping "1"] →
        length (filter (fun m => answers i m = true)
                  (sends_of (run [EvPost (json_post (DecodedSingle (ping "1"))) "b2";
                                  EvSend (pong "1")]
                               (run [EvPost (json_post (DecodedSingle (ping "1"))) "b1"]
                                  (initial None)).1).2)) = 1%nat)
     ∧ (step (EvResume "b2")
          (run [EvPost (json_post (DecodedSingle (ping "1"))) "b1";
                EvPost (json_post (DecodedSingle (ping "1"))) "b2";
                EvSend (pong "1")] (initial None)).1).2 = []
     ∧ (step (EvTimer "b2")
          (run [EvPost (json_post (DecodedSingle (ping "1"))) "b1";
                EvPost (json_post (DecodedSingle (ping "1"))) "b2";
                EvSend (pong "1")] (initial None)).1).2 =
         [PendingDelete "b2"; WriteHead 200 JSON_HEADERS;
          ResEnd (Some (BodyMessages []))]).
Proof.
  split; (split; [|split; reflexivity]).
  - intros i Hi. change (i ∈ ["1"; "1"]) in Hi.
    rewrite !elem_of_cons, elem_of_nil in Hi. by destruct Hi as [->|[->|[]]].
  - intros i Hi. change (i ∈ ["1"]) in Hi.
    rewrite !elem_of_cons, elem_of_nil in Hi. by destruct Hi as [->|[]].
Qed.

(** ** The identifier list of a batch *)

Lemma requestIds_of_cons m ms :
  requestIds_of (m :: ms) =
    if isRequest m then String_msg_id m :: requestIds_of ms else requestIds_of ms.
Proof.
  unfold requestIds_of. destruct (isRequest m) eqn:Hm.
  - by rewrite filter_cons_True.
  - rewrite filter_cons_False; [done|]. by rewrite Hm.
Qed.

(** C2, amended: the batch of a request-bearing call is registered with the
    list of the stringified identifiers of its requests, one entry for each
    request message in order, an identifier borne by two requests appearing
    twice; and in every state the transport reaches, [resolve] has been
    called on an entry exactly when it holds at least as many responses as
    its list has entries.  Completion so requires one response for each
    request message, not one for each distinct identifier. *)
Theorem request_ids_keep_duplicates (req : IncomingMessage) (tok : string)
    (t : RestServerTransport) (msgs : list JSONRPCMessage) :
  accepted req = Some msgs →
  existsb isRequest msgs = true →
  (∃ acts, (handlePostRequest req tok t).2 =
             PendingSet tok (mkPending false [] (requestIds_of msgs)) :: acts)
  ∧ length (requestIds_of msgs) = length (filter (fun m => isRequest m = true) msgs)
  ∧ (∀ i, length (filter (fun s => s = i) (requestIds_of msgs)) =
          length (filter (fun m => isRequest m = true ∧ String_msg_id m = i) msgs))
  ∧ (∀ es handler k p,
       (k, p) ∈ _pendingRequests (run es (initial handler)).1 →
       resolved p = true ↔ (length (requestIds p) ≤ length (responseMessages p))%nat).
Proof.
  intros Hacc Hreq. repeat split.
  - rewrite (accepted_handlePostRequest _ _ _ _ Hacc), (request_bearing _ _ _ Hreq).
    simpl. eauto.
  - unfold requestIds_of. by rewrite length_map.
  - intros i. clear. induction msgs as [|m ms IH]; [done|].
    rewrite requestIds_of_cons, (filter_cons (fun m => _ ∧ _)).
    destruct (isRequest m) eqn:Hm.
    + rewrite filter_cons. destruct (decide (String_msg_id m = i)) as [Hi|Hi].
      * rewrite decide_True by done. simpl. by rewrite IH.
      * rewrite decide_False by tauto. done.
    + rewrite decide_False; [done|]. intros [? _]. done.
  - pose proof (registry_ok_run es (initial handler) (Forall_nil_2 _)) as Hok.
    unfold registry_ok in Hok. rewrite Forall_forall in Hok.
    intros Hres. by apply (Hok (k, p)).
  - pose proof (registry_ok_run es (initial handler) (Forall_nil_2 _)) as Hok.
    unfold registry_ok in Hok. rewrite Forall_forall in Hok.
    intros Hle. by apply (Hok (k, p)).
Qed.

Lemma request_ids_keep_duplicates_witness :
  accepted (json_post (DecodedArray [ping "1"; notify; ping "1"]))
    = Some [ping "1"; notify; ping "1"]
  ∧ existsb isRequest [ping "1"; notify; ping "1"] = true
  ∧ length (requestIds_of [ping "1"; notify; ping "1"]) =
      length (filter (fun m => isRequest m = true) [ping "1"; notify; ping "1"]).
Proof.
  split; [reflexivity|]. split; [reflexivity|].
  apply (request_ids_keep_duplicates
           (json_post (DecodedArray [ping "1"; notify; ping "1"])) "b1"
           (initial None) [ping "1"; notify; ping "1"]); reflexivity.
Defined.

(** C2 as stated fails: two requests with the identifier ["1"] give a list
    of two entries, where the distinct identifiers are one; after one
    response for ["1"] the batch is not resolved and the call cannot resume;
    a second response with the same identifier resolves it. *)
Lemma duplicate_ids_keep_two_slots :
  requestIds_of [ping "1"; ping "1"] = ["1"; "1"]
  ∧ distinct_requestIds [ping "1"; ping "1"] = ["1"]
  ∧ Map_get "b1"
      (_pendingRequests
         (run [EvPost (json_post (DecodedArray [ping "1"; ping "1"])) "b1";
               EvSend (pong "1")] (initial None)).1)
    = Some (mkPending false [pong "1"] ["1"; "1"])
  ∧ (step (EvResume "b1")
       (run [EvPost (json_post (DecodedArray [ping "1"; ping "1"])) "b1";
             EvSend (pong "1")] (initial None)).1).2 = []
  ∧ Map_get "b1"
      (_pendingRequests
         (run [EvPost (json_post (DecodedArray [ping "1"; ping "1"])) "b1";
               EvSend (pong "1"); EvSend (pong "1")] (initial None)).1)
    = Some (mkPending true [pong "1"; pong "1"] ["1"; "1"]).
Proof. repeat split; reflexivity. Qed.

(** ** Responses with an identifier already collected *)

(** C10, amended: for the first registered batch, in registration order,
    whose list contains the identifier of a response, [send] pushes the
    response on that batch whether or not a response with the same
    identifier is already there, and calls [resolve] exactly when the number
    of pushed responses then equals the length of the list.  A batch
    expecting ["1"] and ["2"] that receives two responses for ["1"] is so
    resolved without any response for ["2"]. *)
Theorem first_batch_collects_every_response (t : RestServerTransport)
    (pre post : list (string * PendingRequest)) (tok : string)
    (p : PendingRequest) (m : JSONRPCMessage) :
  _pendingRequests t = pre ++ (tok, p) :: post →
  isResponse m = true →
  String_msg_id m ∈ requestIds p →
  unexpected (String_msg_id m) pre →
  send m t =
    (mkTransport (pre ++ (tok, collect m p) :: post) (onmessage t),
     SendCall m ::
       (if bool_decide (length (responseMessages p ++ [m]) = length (requestIds p))
        then [Resolve tok] else []))
  ∧ responseMessages (collect m p) = responseMessages p ++ [m]
  ∧ run [EvPost (json_post (DecodedArray [ping "1"; ping "2"])) "b1";
         EvSend (pong "1"); EvSend (pong "1")] (initial None) =
      (mkTransport [("b1", mkPending true [pong "1"; pong "1"] ["1"; "2"])] None,
       [PendingSet "b1" (mkPending false [] ["1"; "2"]); SetTimeout 30000;
        SendCall (pong "1"); SendCall (pong "1"); Resolve "b1"]).
Proof.
  intros Hreg Hr Hin Hun. split; [|split; reflexivity].
  rewrite send_response by done. rewrite Hreg.
  by rewrite send_scan_first.
Qed.

Lemma first_batch_collects_every_response_witness :
  _pendingRequests (mkTransport [("b1", mkPending false [pong "1"] ["1"; "2"])] None)
    = [] ++ ("b1", mkPending false [pong "1"] ["1"; "2"]) :: []
  ∧ isResponse (pong "1") = true
  ∧ send (pong "1") (mkTransport [("b1", mkPending false [pong "1"] ["1"; "2"])] None) =
      (mkTransport [("b1", mkPending true [pong "1"; pong "1"] ["1"; "2"])] None,
       [SendCall (pong "1"); Resolve "b1"]).
Proof.
  split; [reflexivity|]. split; [reflexivity|].
  apply (first_batch_collects_every_response
           (mkTransport [("b1", mkPending false [pong "1"] ["1"; "2"])] None)
           [] [] "b1" (mkPending false [pong "1"] ["1"; "2"]) (pong "1")).
  - reflexivity.
  - reflexivity.
  - by apply (bool_decide_unpack _).
  - intros k q Hin. by apply elem_of_nil in Hin.
Defined.

(** C10 as stated fails for a batch registered after another one that
    expects the same identifier: the response is pushed on the earlier batch
    only, and the later batch, whose list contains the identifier, is left
    as it was. *)
Lemma later_batch_does_not_collect :
  Map_get "b2"
    (_pendingRequests
       (run [EvPost (json_post (DecodedArray [ping "1"; ping "2"])) "b1";
             EvPost (json_post (DecodedSingle (ping "1"))) "b2"] (initial None)).1)
  = Some (mkPending false [] ["1"])
  ∧ isResponse (pong "1") = true
  ∧ includes_id ["1"] (String_msg_id (pong "1")) = true
  ∧ (run [EvPost (json_post (DecodedArray [ping "1"; ping "2"])) "b1";
          EvPost (json_post (DecodedSingle (ping "1"))) "b2";
          EvSend (pong "1")] (initial None)).1 =
      mkTransport [("b1", mkPending false [pong "1"] ["1"; "2"]);
                   ("b2", mkPending false [] ["1"])] None.
Proof. repeat split; reflexivity. Qed.

(** ** The three scenarios of the test list *)

(** One request answered at once by the handler: [200], the response as body. *)
Example scenario_single_request :
  (run [EvPost (json_post (DecodedSingle (ping "1"))) "b1"; EvResume "b1"]
     (initial (Some echo_handler))).2 =
    [PendingSet "b1" (mkPending false [] ["1"]);
     OnMessage (ping "1"); SendCall (pong "1"); Resolve "b1"; SetTimeout 30000;
     PendingDelete "b1"; WriteHead 200 JSON_HEADERS;
     ResEnd (Some (BodyMessage (pong "1")))].
Proof. reflexivity. Qed.

(** Two requests answered out of order: [200], both responses in the order
    of arrival. *)
Example scenario_out_of_order :
  http_of
    (run [EvPost (json_post (DecodedArray [ping "1"; ping "2"])) "b1";
          EvSend (pong "2"); EvSend (pong "1"); EvResume "b1"]
       (initial (Some (fun _ => [])))).2 =
    [WriteHead 200 JSON_HEADERS; ResEnd (Some (BodyMessages [pong "2"; pong "1"]))].
Proof. reflexivity. Qed.

(** One notification: [202], no body, the handler called once. *)
Example scenario_notification :
  (run [EvPost (json_post (DecodedSingle notify)) "b1"]
     (initial (Some echo_handler))) =
    (initial (Some echo_handler), [WriteHead 202 []; ResEnd None; OnMessage notify]).
Proof. reflexivity. Qed.

(** ** Argument and environment lookup *)

Lemma js_or_assoc a b c : (a ||| b) ||| c = a ||| (b ||| c).
Proof.
  unfold js_or. destruct a as [s|]; [|done].
  case_bool_decide as Hs; simpl; [done|]. by rewrite ?bool_decide_false.
Qed.

Lemma or_empty_cons a b :
  or_empty (a ||| b) =
    match a with
    | Some s => if bool_decide (s = "") then or_empty b else s
    | None => or_empty b
    end.
Proof.
  unfold or_empty. rewrite js_or_assoc. unfold js_or at 1.
  destruct a as [s|]; [|done]. case_bool_decide as Hs; [done|].
  unfold js_or. by rewrite ?bool_decide_false.
Qed.

Lemma or_empty_last a : or_empty a = first_nonempty [a].
Proof.
  unfold or_empty, js_or. destruct a as [s|]; simpl; [|done].
  case_bool_decide as Hs; [by subst|done].
Qed.

(** The chain of [||] is the described precedence order. *)
Lemma lookup_chain_described args env name :
  lookup_chain args env name = lookup_described args env name.
Proof.
  unfold lookup_chain, lookup_described.
  rewrite !js_or_assoc, !or_empty_cons, or_empty_last. done.
Qed.

(** The second copy performs the described lookup on every input. *)
Lemma part001_lookup argv env name :
  Part001.getParamValue argv env name = lookup_described (getParams argv) env name.
Proof.
  unfold Part001.getParamValue. rewrite lookup_chain_described.
  case_bool_decide as Hsz; [|done].
  apply map_size_empty_iff in Hsz. by rewrite Hsz.
Qed.

(** The first copy performs it when at least one [--] argument is given. *)
Lemma part000_lookup_with_arguments argv env name :
  getParams argv ≠ ∅ →
  Part000.getParamValue argv env name = lookup_described (getParams argv) env name.
Proof.
  intros Hne. unfold Part000.getParamValue. rewrite lookup_chain_described.
  rewrite bool_decide_false; [done|]. intros Hsz. apply Hne.
  by apply map_size_empty_iff.
Qed.


(** C8: with no [--] argument on the command line and [API_KEY] set in the
    environment, the first copy of [getParamValue] returns the empty string;
    the described lookup, and the second copy, return the value of the
    environment variable. *)
Theorem part000_skips_environment :
  Part000.getParamValue ["node"; "server.js"] {["API_KEY" := "secret"]} "api_key" = ""
  ∧ lookup_described (getParams ["node"; "server.js"]) {["API_KEY" := "secret"]}
      "api_key" = "secret"
  ∧ Part001.getParamValue ["node"; "server.js"] {["API_KEY" := "secret"]} "api_key"
    = "secret".
Proof. repeat split; reflexivity. Qed.

(** * Further properties of the code *)

(** ** The header checks *)

Lemma prefix_spec s1 : ∀ s2, String.prefix s1 s2 = true ↔ ∃ r, s2 = s1 +:+ r.
Proof.
  induction s1 as [|a s1 IH]; intros [|b s2]; simpl.
  - split; [intros _; by exists ""|done].
  - split; [intros _; by eexists|done].
  - split; [done|]. by intros [r Hr].
  - destruct (ascii_dec a b) as [->|Hne].
    + rewrite IH. split; intros [r Hr]; exists r; [by rewrite Hr|by injection Hr].
    + split; [done|]. intros [r Hr]. by injection Hr.
Qed.

Lemma includes_spec s sub :
  includes s sub = true ↔ ∃ pre post, s = pre +:+ sub +:+ post.
Proof.
  induction s as [|c s IH]; cbn [includes].
  - rewrite orb_false_r, prefix_spec. split.
    + intros [r Hr]. by exists "", r.
    + intros (pre & post & Hs). destruct pre; [by exists post|done].
  - rewrite orb_true_iff, prefix_spec, IH. split.
    + intros [[r Hr]|(pre & post & Hs)].
      * by exists "", r.
      * exists (String c pre), post. simpl. by rewrite Hs.
    + intros (pre & post & Hs). destruct pre as [|c' pre]; simpl in Hs.
      * left. by exists post.
      * right. injection Hs as -> Hs. by exists pre, post.
Qed.

(** The two header checks as substring conditions: the content type passes
    exactly when it contains [application/json] somewhere, and the accept
    header passes exactly when it is absent, empty, the exact string [*/*],
    or contains [application/json] somewhere. *)
Theorem header_checks_by_substring (req : IncomingMessage) :
  (unsupported_media_type req = false ↔
     ∃ c1 c2, header_content_type req = Some (c1 +:+ "application/json" +:+ c2))
  ∧ (not_acceptable req = false ↔
       header_accept req = None
       ∨ header_accept req = Some ""
       ∨ header_accept req = Some "*/*"
       ∨ ∃ a1 a2, header_accept req = Some (a1 +:+ "application/json" +:+ a2)).
Proof.
  unfold unsupported_media_type, not_acceptable, truthy, header_includes. split.
  - destruct (header_content_type req) as [ct|]; simpl.
    + rewrite orb_false_iff, !negb_false_iff, negb_true_iff, bool_decide_eq_false.
      rewrite includes_spec. split.
      * intros [_ (c1 & c2 & ->)]. by exists c1, c2.
      * intros (c1 & c2 & [= ->]). split; [|by exists c1, c2].
        by destruct c1.
    + split; [done|]. by intros (? & ? & ?).
  - destruct (header_accept req) as [a|]; simpl; [|split; auto].
    rewrite !andb_false_iff, !negb_false_iff, !bool_decide_eq_true, includes_spec.
    split.
    + intros [[Hempty|Hstar]|(a1 & a2 & ->)].
      * right. left. by subst.
      * right. right. by left.
      * right. right. right. by exists a1, a2.
    + intros [?|[[= ->]|[Hstar|(a1 & a2 & [= ->])]]];
        [done|by left; left|by left; right|].
      right. by exists a1, a2.
Qed.

(** ** What the part before the [await] writes *)

Lemma http_of_app a1 a2 : http_of (a1 ++ a2) = http_of a1 ++ http_of a2.
Proof. apply filter_app. Qed.

(** What the loop with exceptions does: calls of the handler and of [send]
    only; and when it ends by an exception, the handler is set and was
    called on the message on which it throws. *)
Lemma forward_all_catching_facts throws ms t :
  Forall (fun a => is_internal a = true) (forward_all_catching throws ms t).1.2
  ∧ (∀ tok ids, registered tok ids t →
                registered tok ids (forward_all_catching throws ms t).1.1)
  ∧ ∀ e, (forward_all_catching throws ms t).2 = Some e →
         ∃ m, m ∈ ms ∧ thrown throws t m = Some e
              ∧ m ∈ forwards_of (forward_all_catching throws ms t).1.2.
Proof.
  destruct (forward_all_catching_prefix throws ms t) as (ms' & Hpre & Heq & Hr).
  destruct (forward_all_facts ms' t) as (_ & _ & Hi & Hf).
  rewrite Heq. split; [done|]. split; [intros; by apply registered_forward_all|].
  intros e He. rewrite He in Hr. destruct Hr as (pre & m & -> & Hm).
  exists m. split; [|split; [done|]].
  - destruct Hpre as [rest ->]. rewrite !elem_of_app, list_elem_of_singleton.
    auto.
  - rewrite Hf. unfold forwarded. unfold thrown in Hm.
    destruct (onmessage t); [|done].
    rewrite elem_of_app, list_elem_of_singleton. auto.
Qed.

(** The part of a request handled before any [await] of the race writes
    nothing on the response, or the [202] acknowledgement, or one error
    envelope with status 400, 405, 406 or 415.  An envelope ends the call: no
    timer is set and the call is not suspended.  Either the envelope answers
    a request that was refused or could not be decoded: the transport is
    unchanged and neither the handler nor [send] was called.  Or it is the
    [400] of a request-bearing call whose handler threw: the exception is
    reported as a parse error, the handler was called on the message on which
    it threw, and the batch of the call is left registered. *)
Theorem error_answer_ends_call (throws : Thrower) (req : IncomingMessage)
    (uuid : string) (t : RestServerTransport) :
  http_of (handleRequest_catching throws req uuid t).1.2 = []
  ∨ http_of (handleRequest_catching throws req uuid t).1.2 =
      [WriteHead 202 []; ResEnd None]
  ∨ ∃ status code message data,
      status ∈ error_statuses
      ∧ (code = -32000 ∨ code = -32700)
      ∧ http_of (handleRequest_catching throws req uuid t).1.2 =
          [WriteHead status []; ResEnd (Some (BodyError code message data))]
      ∧ timers_of (handleRequest_catching throws req uuid t).1.2 = []
      ∧ (handleRequest_catching throws req uuid t).2 = Returned
      ∧ (((handleRequest_catching throws req uuid t).1.1 = t
          ∧ forwards_of (handleRequest_catching throws req uuid t).1.2 = []
          ∧ sends_of (handleRequest_catching throws req uuid t).1.2 = [])
         ∨ ∃ msgs m e,
             accepted req = Some msgs
             ∧ existsb isRequest msgs = true
             ∧ m ∈ msgs
             ∧ thrown throws t m = Some e
             ∧ status = 400 ∧ code = -32700 ∧ message = "Parse error"
             ∧ data = Some e
             ∧ m ∈ forwards_of (handleRequest_catching throws req uuid t).1.2
             ∧ registered uuid (requestIds_of msgs)
                 (handleRequest_catching throws req uuid t).1.1).
Proof.
  unfold handleRequest_catching, handlePostRequest_catching, accepted,
    error_statuses.
  case_bool_decide as Hm.
  2:{ right. right. exists 405, (-32000), "Method not allowed", None.
      repeat split; auto. set_solver. }
  destruct (not_acceptable req).
  { right. right. eexists 406, (-32000), _, None. repeat split; auto. set_solver. }
  destruct (unsupported_media_type req).
  { right. right. eexists 415, (-32000), _, None. repeat split; auto. set_solver. }
  destruct (decode (req_body req)) as [e|ms].
  { right. right. eexists 400, (-32700), _, (Some e). repeat split; auto. set_solver. }
  unfold handleMessages_catching. destruct (forallb isNotification ms).
  - right. left.
    destruct (forward_all_catching_facts throws ms t) as (Hi & _).
    apply internal_http in Hi.
    destruct (forward_all_catching throws ms t) as [[t1 a1] r]. simpl in *.
    unfold http_of in *. rewrite !filter_cons_True by done. by rewrite Hi.
  - destruct (existsb isRequest ms) eqn:Hreq; [|by left].
    match goal with |- context [forward_all_catching throws ms ?t1] =>
      destruct (forward_all_catching_facts throws ms t1) as (Hi & Hreg & Hthr);
      specialize (Hreg uuid (requestIds_of ms));
      destruct (forward_all_catching throws ms t1) as [[t2 a2] r] end.
    pose proof (internal_timers _ Hi) as Hti.
    apply internal_http in Hi. simpl in *. destruct r as [e|]; cbn [fst snd].
    + right. right. exists 400, (-32700), "Parse error", (Some e).
      destruct (Hthr e eq_refl) as (m & Hin & Hm' & Hfw).
      split; [set_solver|]. split; [by right|].
      split; [|split; [|split; [done|]]].
      * unfold http_of in *. rewrite filter_cons_False by (simpl; congruence).
        by rewrite filter_app, Hi.
      * unfold timers_of in *. simpl. by rewrite omap_app, Hti.
      * right. exists ms, m, e. repeat split; try done.
        -- unfold forwards_of in *. simpl. rewrite omap_app, elem_of_app. by left.
        -- apply Hreg. eexists. split; [apply Map_get_set|done].
    + left. unfold http_of in *. rewrite filter_cons_False by (simpl; congruence).
      by rewrite filter_app, Hi.
Qed.

(** ** The two ends of the synchronous part of a request-bearing call *)

(** When the synchronous part of a request-bearing call ends, its batch is
    registered with the identifier list of the call.  Either no invocation of
    the handler threw: nothing is written on the response, one timer of 30000
    ms is set and the call is suspended at its race.  Or the handler threw
    on a message: the call has answered [400] with the exception as data of a
    parse error and called [onerror], has set no timer and is not
    suspended. *)
Theorem request_bearing_call_awaits_or_fails (throws : Thrower)
    (req : IncomingMessage) (tok : string) (t : RestServerTransport)
    (msgs : list JSONRPCMessage) :
  req_method req = "POST" →
  accepted req = Some msgs →
  existsb isRequest msgs = true →
  registered tok (requestIds_of msgs) (handleRequest_catching throws req tok t).1.1
  ∧ ((quiet throws t msgs
      ∧ (handleRequest_catching throws req tok t).2 = Awaits tok
      ∧ http_of (handleRequest_catching throws req tok t).1.2 = []
      ∧ timers_of (handleRequest_catching throws req tok t).1.2 = [30000])
     ∨ ∃ m e,
         m ∈ msgs
         ∧ thrown throws t m = Some e
         ∧ (handleRequest_catching throws req tok t).2 = Returned
         ∧ http_of (handleRequest_catching throws req tok t).1.2 =
             [WriteHead 400 [];
              ResEnd (Some (BodyError (-32700) "Parse error" (Some e)))]
         ∧ timers_of (handleRequest_catching throws req tok t).1.2 = []
         ∧ last (handleRequest_catching throws req tok t).1.2 = Some (OnError e)).
Proof.
  intros Hpost Hacc Hreq.
  unfold handleRequest_catching, handlePostRequest_catching.
  rewrite bool_decide_true by done. revert Hacc. unfold accepted.
  destruct (not_acceptable req); [done|].
  destruct (unsupported_media_type req); [done|]. simpl.
  destruct (decode (req_body req)) as [e|ms]; [done|]. intros [= ->].
  unfold handleMessages_catching.
  rewrite (request_not_notification _ Hreq), Hreq.
  match goal with |- context [forward_all_catching throws msgs ?t1] =>
    destruct (forward_all_catching_facts throws msgs t1) as (Hi & Hreg & Hthr);
    specialize (Hreg tok (requestIds_of msgs));
    destruct (forward_all_catching throws msgs t1) as [[t2 a2] r] eqn:Hfw end.
  pose proof (internal_timers _ Hi) as Hti.
  apply internal_http in Hi. simpl in *.
  assert (registered tok (requestIds_of msgs) t2) as Hr2.
  { apply Hreg. eexists. split; [apply Map_get_set|done]. }
  destruct r as [e|]; cbn [fst snd]; (split; [done|]).
  - right. destruct (Hthr e eq_refl) as (m & Hin & Hm' & _).
    exists m, e. repeat split; try done.
    + unfold http_of in *. rewrite filter_cons_False by (simpl; congruence).
      by rewrite filter_app, Hi.
    + unfold timers_of in *. simpl. by rewrite omap_app, Hti.
    + by rewrite last_cons, last_app.
  - left. split.
    + intros m Hin.
      apply (forward_all_catching_none throws msgs _ (f_equal snd Hfw) m Hin).
    + split; [done|]. split.
      * unfold http_of in *. rewrite filter_cons_False by (simpl; congruence).
        by rewrite filter_app, Hi.
      * unfold timers_of in *. simpl. by rewrite omap_app, Hti.
Qed.

Lemma request_bearing_call_awaits_or_fails_witness :
  registered "b1" (requestIds_of [ping "1"; notify])
    (handleRequest_catching throws_on_requests
       (json_post (DecodedArray [ping "1"; notify])) "b1"
       (initial (Some echo_handler))).1.1
  ∧ (handleRequest_catching throws_on_requests
       (json_post (DecodedArray [ping "1"; notify])) "b1"
       (initial (Some echo_handler))).1.2 =
      [PendingSet "b1" (mkPending false [] ["1"]); OnMessage (ping "1");
       SendCall (pong "1"); Resolve "b1"; WriteHead 400 [];
       ResEnd (Some (BodyError (-32700) "Parse error" (Some "Error: tool failed")));
       OnError "Error: tool failed"].
Proof.
  split; [|reflexivity].
  apply (request_bearing_call_awaits_or_fails throws_on_requests
           (json_post (DecodedArray [ping "1"; notify])) "b1"
           (initial (Some echo_handler)) [ping "1"; notify]); reflexivity.
Defined.

(** ** [send] touches one batch *)

(** The loop of [send] either finds no entry and changes nothing, or pushes
    on the first entry that lists the identifier and on no other. *)
Lemma send_scan_cases i m l :
  (unexpected i l ∧ send_scan i m l = (l, []))
  ∨ ∃ pre k q post,
      l = pre ++ (k, q) :: post
      ∧ unexpected i pre
      ∧ i ∈ requestIds q
      ∧ send_scan i m l =
          (pre ++ (k, collect m q) :: post,
           if bool_decide (length (responseMessages q ++ [m]) = length (requestIds q))
           then [Resolve k] else []).
Proof.
  induction l as [|[k q] l IH].
  - left. split; [|done]. intros k q Hin. by apply elem_of_nil in Hin.
  - destruct (decide (i ∈ requestIds q)) as [Hin|Hnin].
    + right. exists [], k, q, l. split; [done|].
      split; [intros ? ? H0; by apply elem_of_nil in H0|]. split; [done|].
      apply (send_scan_first i m [] k q l); [|done].
      intros ? ? H0. by apply elem_of_nil in H0.
    + assert (∀ pre, unexpected i pre → unexpected i ((k, q) :: pre)) as Hcons.
      { intros pre Hun k' q'. rewrite elem_of_cons. intros [[= -> ->]|H0]; [done|].
        by apply (Hun k'). }
      destruct IH as [[Hun Heq]|(pre & k' & q' & post & -> & Hun & Hin & Heq)].
      * left. split; [by apply Hcons|]. apply send_scan_unexpected. by apply Hcons.
      * right. exists ((k, q) :: pre), k', q', post. split; [done|].
        split; [by apply Hcons|]. split; [done|].
        apply (send_scan_first i m ((k, q) :: pre)); [by apply Hcons|done].
Qed.

Lemma total_collected_push pre k q post m h :
  total_collected (mkTransport (pre ++ (k, collect m q) :: post) h) =
    S (total_collected (mkTransport (pre ++ (k, q) :: post) h)).
Proof.
  unfold total_collected. simpl. rewrite !sum_list_with_app. simpl.
  rewrite length_app. simpl. lia.
Qed.

(** A call of [send] keeps the tokens and their order, keeps the identifier
    list of every batch, removes and reorders nothing in what a batch holds,
    never takes back a resolution, and adds at most one response in all:
    one response is never collected by two batches. *)
Theorem send_touches_one_batch (m : JSONRPCMessage) (t : RestServerTransport) :
  keys (send m t).1 = keys t
  ∧ onmessage (send m t).1 = onmessage t
  ∧ Forall2
      (fun x y =>
         requestIds y.2 = requestIds x.2
         ∧ responseMessages x.2 `prefix_of` responseMessages y.2
         ∧ (resolved x.2 = true → resolved y.2 = true))
      (_pendingRequests t) (_pendingRequests (send m t).1)
  ∧ (total_collected (send m t).1 = total_collected t
     ∨ (total_collected (send m t).1 = S (total_collected t)
        ∧ isResponse m = true
        ∧ ¬ unexpected (String_msg_id m) (_pendingRequests t))).
Proof.
  split; [apply send_keys|]. split; [apply send_onmessage|].
  assert (∀ l : list (string * PendingRequest),
            Forall2 (fun x y => requestIds y.2 = requestIds x.2
                       ∧ responseMessages x.2 `prefix_of` responseMessages y.2
                       ∧ (resolved x.2 = true → resolved y.2 = true)) l l) as Hrefl.
  { intros l. apply Forall_Forall2_diag, Forall_forall. by intros x _. }
  destruct (isResponse m) eqn:Hr.
  2:{ rewrite send_not_response by done. simpl. split; [apply Hrefl|by left]. }
  rewrite send_response by done. simpl.
  destruct (send_scan_cases (String_msg_id m) m (_pendingRequests t))
    as [[Hun ->]|(pre & k & q & post & Hreg & Hun & Hin & ->)]; simpl.
  - split; [apply Hrefl|left]. by destruct t.
  - rewrite Hreg. split.
    + apply Forall2_app; [apply Hrefl|]. constructor; [|apply Hrefl]. simpl.
      split; [done|]. split; [by apply prefix_app_r|]. by intros ->.
    + right. split; [|split; [done|]].
      * destruct t as [reg h]. simpl in *. subst reg. apply total_collected_push.
      * intros Hall. apply (Hall k q); [|done].
        rewrite elem_of_app, elem_of_cons. auto.
Qed.

(** A response that arrives after [resolve] was called and before the call
    resumes is pushed on the same array and is part of the body: the body
    then holds more responses than the call had requests, and [resolve] is
    not called again. *)
Theorem response_after_resolve_reaches_body (t : RestServerTransport)
    (pre post : list (string * PendingRequest)) (tok : string)
    (p : PendingRequest) (m : JSONRPCMessage) :
  _pendingRequests t = pre ++ (tok, p) :: post →
  tok ∉ pre.*1 →
  unexpected (String_msg_id m) pre →
  isResponse m = true →
  String_msg_id m ∈ requestIds p →
  entry_ok p →
  resolved p = true →
  (send m t).2 = [SendCall m]
  ∧ (step (EvResume tok) (send m t).1).2 =
      [PendingDelete tok; WriteHead 200 JSON_HEADERS;
       ResEnd (Some (responseBody (responseMessages p ++ [m])))]
  ∧ (length (requestIds p) < length (responseMessages p ++ [m]))%nat.
Proof.
  intros Hreg Hfresh Hun Hr Hin Hok Hres.
  assert (length (requestIds p) ≤ length (responseMessages p))%nat as Hle
    by by apply Hok.
  rewrite send_response by done. rewrite Hreg, send_scan_first by done.
  rewrite length_app. simpl. rewrite bool_decide_false by lia.
  split; [done|]. split; [|lia].
  rewrite Map_get_app_fresh by done. unfold collect. simpl. by rewrite Hres.
Qed.

Lemma response_after_resolve_reaches_body_witness :
  entry_ok (mkPending true [pong "1"] ["1"])
  ∧ (step (EvResume "b1")
       (send (pong "1") (mkTransport [("b1", mkPending true [pong "1"] ["1"])] None)).1).2 =
      [PendingDelete "b1"; WriteHead 200 JSON_HEADERS;
       ResEnd (Some (BodyMessages [pong "1"; pong "1"]))].
Proof.
  assert (entry_ok (mkPending true [pong "1"] ["1"])) as Hok.
  { unfold entry_ok. simpl. split; [lia|done]. }
  split; [exact Hok|].
  apply (response_after_resolve_reaches_body
           (mkTransport [("b1", mkPending true [pong "1"] ["1"])] None)
           [] [] "b1" (mkPending true [pong "1"] ["1"]) (pong "1")).
  - reflexivity.
  - apply not_elem_of_nil.
  - intros k q Hin. by apply elem_of_nil in Hin.
  - reflexivity.
  - by apply (bool_decide_unpack _).
  - exact Hok.
  - reflexivity.
Defined.

(** ** Where tokens come from *)

Lemma Map_set_keys {V} k (v : V) (m : list (string * V)) :
  (Map_set k v m).*1 = if bool_decide (k ∈ m.*1) then m.*1 else m.*1 ++ [k].
Proof.
  induction m as [|[k' v'] m IH]; cbn [Map_set fmap list_fmap fst].
  - rewrite bool_decide_false; [done|apply not_elem_of_nil].
  - destruct (decide (k' = k)) as [->|Hk].
    + rewrite (bool_decide_true (k = k)) by done.
      rewrite bool_decide_true; [done|]. rewrite elem_of_cons. auto.
    + rewrite (bool_decide_false (k' = k)) by done. cbn [fmap list_fmap fst].
      change (list_fmap _ _ fst (Map_set k v m)) with ((Map_set k v m).*1).
      rewrite IH. destruct (decide (k ∈ m.*1)) as [Hin|Hnin].
      * rewrite !bool_decide_true; [done| |done]. rewrite elem_of_cons. auto.
      * rewrite !bool_decide_false; [done| |done].
        rewrite not_elem_of_cons. split; [congruence|done].
Qed.

Lemma Map_delete_keys_filter {V} k (m : list (string * V)) :
  (Map_delete k m).*1 = filter (fun x => x ≠ k) m.*1.
Proof.
  induction m as [|[k' v'] m IH]; [done|].
  rewrite fmap_cons, filter_cons. cbn [Map_delete fst].
  destruct (decide (k' = k)) as [->|Hk].
  - rewrite bool_decide_true by done. rewrite decide_False by (intros H0; by apply H0).
    done.
  - rewrite bool_decide_false by done. rewrite decide_True by done.
    rewrite fmap_cons. by rewrite IH.
Qed.

Lemma handleMessages_keys ms uuid t :
  keys (handleMessages ms uuid t).1 =
    if forallb isNotification ms then keys t
    else if existsb isRequest ms
         then (Map_set uuid (mkPending false [] (requestIds_of ms)) (_pendingRequests t)).*1
         else keys t.
Proof.
  unfold handleMessages. destruct (forallb isNotification ms).
  - destruct (forward_all_facts ms t) as (Hk & _). by destruct (forward_all ms t).
  - destruct (existsb isRequest ms); [|done].
    match goal with |- context [forward_all ms ?t1] =>
      destruct (forward_all_facts ms t1) as (Hk & _);
      destruct (forward_all ms t1) as [t2 a2] end.
    done.
Qed.

(** A token enters the registry only as the token of a POST that passes the
    header checks and carries a request; no other event adds one, and the
    tokens of the registry stay pairwise distinct. *)
Theorem tokens_come_from_request_bearing_posts (e : Event) (t : RestServerTransport) :
  (∀ k, k ∈ keys (step e t).1 →
        k ∈ keys t
        ∨ ∃ req msgs,
            e = EvPost req k ∧ req_method req = "POST"
            ∧ accepted req = Some msgs ∧ existsb isRequest msgs = true)
  ∧ (NoDup (keys t) → NoDup (keys (step e t).1)).
Proof.
  destruct e as [req uuid|m|tok|tok]; simpl.
  - unfold handleRequest. case_bool_decide as Hm; [|by split; auto].
    destruct (accepted req) as [msgs|] eqn:Hacc.
    + rewrite (accepted_handlePostRequest _ _ _ _ Hacc), handleMessages_keys.
      destruct (forallb isNotification msgs); [by split; auto|].
      destruct (existsb isRequest msgs) eqn:Hreq; [|by split; auto].
      rewrite Map_set_keys. fold (keys t). case_bool_decide as Hin; [by split; auto|].
      split.
      * intros k. rewrite elem_of_app, list_elem_of_singleton. intros [?| ->]; [by left|].
        right. by exists req, msgs.
      * intros Hnd. apply NoDup_app. split; [done|]. split; [|apply NoDup_singleton].
        intros x Hx. rewrite list_elem_of_singleton. by intros ->.
    + assert (handlePostRequest req uuid t = (t, (handlePostRequest req uuid t).2)) as ->.
      { revert Hacc. unfold accepted, handlePostRequest.
        destruct (not_acceptable req); [done|].
        destruct (unsupported_media_type req); [done|]. simpl.
        by destruct (decode (req_body req)). }
      by split; auto.
  - rewrite send_keys. by split; auto.
  - destruct (Map_get tok _) as [p|]; [|by split; auto].
    destruct (resolved p); [|by split; auto]. unfold keys. simpl.
    rewrite Map_delete_keys_filter. split.
    + intros k Hk. apply list_elem_of_filter in Hk as [_ Hk]. by left.
    + apply NoDup_filter.
  - destruct (Map_get tok _) as [p|]; [|by split; auto].
    destruct (resolved p); [by split; auto|]. unfold keys. simpl.
    rewrite Map_delete_keys_filter. split.
    + intros k Hk. apply list_elem_of_filter in Hk as [_ Hk]. by left.
    + apply NoDup_filter.
Qed.

(** ** [resolve] is called at most once *)

Lemma NoDup_Map_set {V} k (v : V) (m : list (string * V)) :
  NoDup m.*1 → NoDup (Map_set k v m).*1.
Proof.
  intros Hnd. rewrite Map_set_keys. case_bool_decide as Hin; [done|].
  apply NoDup_app. split; [done|]. split; [|apply NoDup_singleton].
  intros x Hx. rewrite list_elem_of_singleton. by intros ->.
Qed.

Lemma NoDup_Map_delete {V} k (m : list (string * V)) :
  NoDup m.*1 → NoDup (Map_delete k m).*1.
Proof. intros Hnd. rewrite Map_delete_keys_filter. by apply NoDup_filter. Qed.

Lemma Map_get_update_ne {V} tok k (v v' : V) pre post :
  k ≠ tok →
  Map_get tok (pre ++ (k, v') :: post) = Map_get tok (pre ++ (k, v) :: post).
Proof.
  intros Hne. induction pre as [|[k1 v1] pre IH]; simpl.
  - by rewrite !bool_decide_false.
  - by rewrite IH.
Qed.

Lemma resolves_of_app tok a1 a2 :
  resolves_of tok (a1 ++ a2) = (resolves_of tok a1 + resolves_of tok a2)%nat.
Proof. unfold resolves_of. by rewrite filter_app, length_app. Qed.

Lemma resolved_once_send tok n m t :
  resolved_once tok n t →
  resolved_once tok (n + resolves_of tok (send m t).2) (send m t).1.
Proof.
  intros (Hnd & p & Hget & Hok & Hn). split; [by rewrite send_keys|].
  destruct (isResponse m) eqn:Hr.
  2:{ rewrite send_not_response by done. simpl. exists p.
      unfold resolves_of. rewrite filter_cons_False by (simpl; congruence).
      simpl. rewrite Nat.add_0_r. done. }
  rewrite send_response by done. simpl.
  unfold resolves_of. rewrite filter_cons_False by (simpl; congruence).
  fold (resolves_of tok (send_scan (String_msg_id m) m (_pendingRequests t)).2).
  destruct (send_scan_cases (String_msg_id m) m (_pendingRequests t))
    as [[Hun ->]|(pre & k & q & post & Hreg & Hun & Hin & ->)]; simpl.
  { exists p. rewrite Nat.add_0_r. done. }
  destruct (decide (k = tok)) as [->|Hk].
  - assert (tok ∉ pre.*1) as Hfresh.
    { unfold keys in Hnd. rewrite Hreg, fmap_app, fmap_cons in Hnd.
      apply NoDup_app in Hnd as (_ & Hdisj & _). intros Hin'.
      apply (Hdisj _ Hin'). rewrite elem_of_cons. auto. }
    rewrite Hreg, Map_get_app_fresh in Hget by done. injection Hget as ->.
    exists (collect m p). rewrite Map_get_app_fresh by done.
    split; [done|]. split; [by apply collect_entry_ok|].
    unfold collect, entry_ok in *. simpl. rewrite length_app in *. simpl.
    destruct (resolved p) eqn:Hres; simpl; subst n.
    + assert (length (requestIds p) ≤ length (responseMessages p))%nat by by apply Hok.
      rewrite bool_decide_false by lia. done.
    + case_bool_decide; unfold resolves_of; simpl.
      * rewrite filter_cons_True by (simpl; by rewrite bool_decide_true). done.
      * done.
  - exists p. rewrite <- Hget, Hreg. split; [by apply Map_get_update_ne|].
    split; [done|]. subst n.
    assert (resolves_of tok
              (if bool_decide (length (responseMessages q ++ [m]) = length (requestIds q))
               then [Resolve k] else []) = 0%nat) as ->.
    { case_bool_decide; [|done]. unfold resolves_of.
      rewrite filter_cons_False; [done|]. simpl. by rewrite bool_decide_false. }
    by rewrite Nat.add_0_r.
Qed.

Lemma resolved_once_send_all tok outs : ∀ n t,
  resolved_once tok n t →
  resolved_once tok (n + resolves_of tok (send_all outs t).2) (send_all outs t).1.
Proof.
  induction outs as [|m outs IH]; intros n t Hinv; simpl.
  - by rewrite Nat.add_0_r.
  - pose proof (resolved_once_send _ _ m _ Hinv) as H1.
    destruct (send m t) as [t1 a1]. simpl in *. specialize (IH _ _ H1).
    destruct (send_all outs t1) as [t2 a2]. simpl in *.
    by rewrite resolves_of_app, Nat.add_assoc.
Qed.

Lemma resolved_once_forward_all tok ms : ∀ n t,
  resolved_once tok n t →
  resolved_once tok (n + resolves_of tok (forward_all ms t).2) (forward_all ms t).1.
Proof.
  induction ms as [|m ms IH]; intros n t Hinv; simpl.
  - by rewrite Nat.add_0_r.
  - assert (resolved_once tok (n + resolves_of tok (forward m t).2) (forward m t).1)
      as H1.
    { unfold forward. destruct (onmessage t) as [h|]; simpl.
      - pose proof (resolved_once_send_all _ (h m) _ _ Hinv) as H1.
        destruct (send_all (h m) t) as [t1 a1]. simpl in *.
        unfold resolves_of in *. by rewrite filter_cons_False by (simpl; congruence).
      - by rewrite Nat.add_0_r. }
    destruct (forward m t) as [t1 a1]. simpl in *. specialize (IH _ _ H1).
    destruct (forward_all ms t1) as [t2 a2]. simpl in *.
    by rewrite resolves_of_app, Nat.add_assoc.
Qed.

Lemma resolved_once_step tok e n t :
  resolved_once tok n t →
  e ≠ EvResume tok → e ≠ EvTimer tok →
  fresh_uuids [e] t →
  resolved_once tok (n + resolves_of tok (step e t).2) (step e t).1.
Proof.
  intros Hinv Hr Ht [Hf _].
  assert (∀ t', t' = t → resolved_once tok (n + 0) t') as Hsame.
  { intros ? ->. by rewrite Nat.add_0_r. }
  destruct e as [req uuid|m|tok'|tok']; simpl.
  - unfold handleRequest, handlePostRequest. case_bool_decide; [|by apply Hsame].
    destruct (not_acceptable req); [by apply Hsame|].
    destruct (unsupported_media_type req); [by apply Hsame|].
    destruct (decode (req_body req)) as [e|ms]; [by apply Hsame|].
    unfold handleMessages. destruct (forallb isNotification ms).
    + pose proof (resolved_once_forward_all _ ms _ _ Hinv) as H1.
      destruct (forward_all ms t) as [t1 a1]. simpl in *.
      unfold resolves_of in *. by rewrite !filter_cons_False by (simpl; congruence).
    + destruct (existsb isRequest ms); [|by apply Hsame].
      match goal with |- context [forward_all ms ?t1] =>
        assert (resolved_once tok n t1) as H0 end.
      { destruct Hinv as (Hnd & p & Hget & Hok & Hn). split.
        - by apply NoDup_Map_set.
        - exists p. split; [|done]. simpl. rewrite Map_get_set_ne; [done|].
          intros ->. apply Hf. by eapply Map_get_keys. }
      pose proof (resolved_once_forward_all _ ms _ _ H0) as H1.
      destruct (forward_all ms _) as [t1 a1]. simpl in *.
      unfold resolves_of in *. rewrite filter_cons_False by (simpl; congruence).
      rewrite filter_app, length_app. simpl. by rewrite Nat.add_0_r.
  - by apply resolved_once_send.
  - destruct (Map_get tok' _) as [p'|]; [|by apply Hsame].
    destruct (resolved p'); [|by apply Hsame]. simpl. rewrite Nat.add_0_r.
    destruct Hinv as (Hnd & p & Hget & Hok & Hn). split.
    + by apply NoDup_Map_delete.
    + exists p. split; [|done]. simpl. rewrite Map_get_delete_ne; [done|congruence].
  - destruct (Map_get tok' _) as [p'|]; [|by apply Hsame].
    destruct (resolved p'); [by apply Hsame|]. simpl. rewrite Nat.add_0_r.
    destruct Hinv as (Hnd & p & Hget & Hok & Hn). split.
    + by apply NoDup_Map_delete.
    + exists p. split; [|done]. simpl. rewrite Map_get_delete_ne; [done|congruence].
Qed.

Lemma resolved_once_run tok es : ∀ n t,
  resolved_once tok n t → awaiting tok es → fresh_uuids es t →
  resolved_once tok (n + resolves_of tok (run es t).2) (run es t).1.
Proof.
  induction es as [|e es IH]; intros n t Hinv Haw Hf; simpl.
  - by rewrite Nat.add_0_r.
  - destruct Hf as [Hf1 Hf2].
    destruct (Haw e) as [Hr Ht]; [rewrite elem_of_cons; auto|].
    pose proof (resolved_once_step _ e _ _ Hinv Hr Ht (conj Hf1 I)) as H1.
    destruct (step e t) as [t1 a1]. simpl in *.
    assert (awaiting tok es) as Haw'.
    { intros e' He'. apply Haw. rewrite elem_of_cons. auto. }
    specialize (IH _ _ H1 Haw' Hf2).
    destruct (run es t1) as [t2 a2]. simpl in *.
    by rewrite resolves_of_app, Nat.add_assoc.
Qed.

(** From its POST until it continues, the [resolve] callback of a
    request-bearing call is called at most once, and it has been called
    exactly when its entry is marked resolved: responses pushed later never
    resolve it a second time. *)
Theorem resolve_called_at_most_once (req : IncomingMessage) (tok : string)
    (t : RestServerTransport) (msgs : list JSONRPCMessage) (es : list Event) :
  req_method req = "POST" →
  accepted req = Some msgs →
  existsb isRequest msgs = true →
  NoDup (keys t) →
  awaiting tok es →
  fresh_uuids es (step (EvPost req tok) t).1 →
  (resolves_of tok (run (EvPost req tok :: es) t).2 ≤ 1)%nat
  ∧ ∃ p, Map_get tok (_pendingRequests (run (EvPost req tok :: es) t).1) = Some p
         ∧ resolves_of tok (run (EvPost req tok :: es) t).2 =
             if resolved p then 1%nat else 0%nat.
Proof.
  intros Hpost Hacc Hreq Hnd Haw Hf.
  assert (resolved_once tok 0
            (mkTransport (Map_set tok (mkPending false [] (requestIds_of msgs))
                            (_pendingRequests t)) (onmessage t))) as H0.
  { split; [by apply NoDup_Map_set|]. eexists. split; [apply Map_get_set|].
    split; [|done]. unfold entry_ok. simpl.
    apply requestIds_of_nonempty in Hreq. destruct (requestIds_of msgs); [done|].
    simpl. split; [done|lia]. }
  apply (resolved_once_forward_all _ msgs) in H0.
  cbn [run]. revert Hf. cbn [step]. unfold handleRequest.
  rewrite bool_decide_true by done.
  rewrite (accepted_handlePostRequest _ _ _ _ Hacc), (request_bearing _ _ _ Hreq).
  cbv zeta. destruct (forward_all msgs _) as [t1 a1]. cbn [fst snd] in *.
  intros Hf. pose proof (resolved_once_run _ es _ _ H0 Haw Hf) as H1.
  destruct (run es t1) as [t2 a2]. cbn [fst snd] in *.
  assert (resolves_of tok
            ((PendingSet tok (mkPending false [] (requestIds_of msgs))
                :: a1 ++ [SetTimeout TIMEOUT_MS]) ++ a2)
          = (0 + resolves_of tok a1 + resolves_of tok a2)%nat) as ->.
  { rewrite resolves_of_app. f_equal. unfold resolves_of.
    rewrite filter_cons_False by (simpl; congruence).
    rewrite filter_app, length_app. simpl. lia. }
  destruct H1 as (_ & p & Hget & _ & Hn). split.
  - rewrite Hn. by destruct (resolved p); lia.
  - by exists p.
Qed.

Lemma resolve_called_at_most_once_witness :
  NoDup (keys (initial (Some echo_handler)))
  ∧ awaiting "b1" [EvSend (pong "2"); EvSend (pong "1")]
  ∧ (resolves_of "b1"
       (run [EvPost (json_post (DecodedArray [ping "1"; ping "2"])) "b1";
             EvSend (pong "2"); EvSend (pong "1")] (initial (Some echo_handler))).2
     ≤ 1)%nat.
Proof.
  assert (awaiting "b1" [EvSend (pong "2"); EvSend (pong "1")]) as Haw.
  { intros e He. rewrite !elem_of_cons, elem_of_nil in He.
    by destruct He as [->|[->|[]]]. }
  split; [apply NoDup_nil_2|]. split; [exact Haw|].
  apply (resolve_called_at_most_once
           (json_post (DecodedArray [ping "1"; ping "2"])) "b1"
           (initial (Some echo_handler)) [ping "1"; ping "2"]
           [EvSend (pong "2"); EvSend (pong "1")]);
    [reflexivity|reflexivity|reflexivity|apply NoDup_nil_2|exact Haw|simpl; tauto].
Defined.

(** ** Lifecycle *)

Lemma operate_started op s : _started s = true → _started (operate op s) = true.
Proof.
  intros Hs. destruct op as [|o|o|o|e]; simpl.
  - unfold start. by rewrite Hs.
  - unfold startServer. destruct (_server s); [done|].
    by destruct o as [| |e []].
  - unfold stopServer. destruct (_httpServer s); [|done]. by destruct o.
  - unfold close, stopServer. destruct (_httpServer s); [|done]. by destruct o.
  - done.
Qed.

Lemma operate_all_started ops : ∀ s,
  _started s = true → _started (operate_all ops s) = true.
Proof.
  induction ops as [|op ops IH]; intros s Hs; [done|].
  apply IH. by apply operate_started.
Qed.

(** [start] succeeds at most once in the life of a transport: after a
    fulfilled [start], whatever is done in between, [stopServer] and [close]
    included, every later [start] is rejected with ["Transport already
    started"] and changes nothing. *)
Theorem start_succeeds_only_once (s : Lifecycle) (ops : list Operation) :
  (start s).2 = Fulfilled →
  start (operate_all ops (start s).1) =
    (operate_all ops (start s).1, RejectedWith "Transport already started").
Proof.
  intros Hok. assert (_started (start s).1 = true) as Hs.
  { revert Hok. unfold start. by destruct (_started s). }
  pose proof (operate_all_started ops _ Hs) as Hs'.
  unfold start at 1. by rewrite Hs'.
Qed.

Lemma start_succeeds_only_once_witness :
  (start (constructed None)).2 = Fulfilled
  ∧ start (operate_all [OpStartServer Listening; OpClose Closed]
             (start (constructed None)).1) =
      (operate_all [OpStartServer Listening; OpClose Closed]
         (start (constructed None)).1,
       RejectedWith "Transport already started").
Proof.
  split; [reflexivity|].
  apply (start_succeeds_only_once (constructed None)
           [OpStartServer Listening; OpClose Closed]).
  reflexivity.
Defined.

(** A server that is not set starts when [listen] calls back; while it is
    set every [startServer] is rejected with ["Server is already running"]
    and changes nothing; a successful [stopServer] makes [startServer]
    possible again, and a further [stopServer] is fulfilled without effect. *)
Theorem server_restarts_after_stop (s : Lifecycle) :
  _server s = false →
  (startServer Listening s).1.2 = Fulfilled
  ∧ (∀ o, startServer o (startServer Listening s).1.1 =
            ((startServer Listening s).1.1,
             RejectedWith "Server is already running", []))
  ∧ (stopServer Closed (startServer Listening s).1.1).2 = Fulfilled
  ∧ (startServer Listening
       (stopServer Closed (startServer Listening s).1.1).1).1.2 = Fulfilled
  ∧ (∀ o, stopServer o (stopServer Closed (startServer Listening s).1.1).1 =
            ((stopServer Closed (startServer Listening s).1.1).1, Fulfilled)).
Proof.
  intros Hs. unfold startServer, stopServer. rewrite Hs. simpl.
  repeat split; intros; by destruct o.
Qed.

Lemma server_restarts_after_stop_witness :
  _server (constructed None) = false
  ∧ (startServer Listening
       (stopServer Closed (startServer Listening (constructed None)).1.1).1).1.2
    = Fulfilled.
Proof.
  split; [reflexivity|].
  apply (server_restarts_after_stop (constructed None)). reflexivity.
Defined.

Lemma operate_stuck op s :
  _server s = true → _httpServer s = false →
  _server (operate op s) = true ∧ _httpServer (operate op s) = false.
Proof.
  intros Hs Hh. destruct op as [|o|o|o|e]; simpl.
  - unfold start. by destruct (_started s).
  - unfold startServer. by rewrite Hs.
  - unfold stopServer. by rewrite Hh.
  - unfold close, stopServer. by rewrite Hh.
  - done.
Qed.

Lemma operate_all_stuck ops : ∀ s,
  _server s = true → _httpServer s = false →
  _server (operate_all ops s) = true ∧ _httpServer (operate_all ops s) = false.
Proof.
  induction ops as [|op ops IH]; intros s Hs Hh; [done|].
  destruct (operate_stuck op s Hs Hh) as [Hs' Hh']. by apply IH.
Qed.

(** When [listen] throws, [_server] stays set and [_httpServer] stays null.
    From then on no operation resets [_server]: [stopServer] and [close]
    find no HTTP server to close, so every later [startServer] is rejected
    with ["Server is already running"], whatever was done in between. *)
Theorem failed_listen_blocks_every_restart (s : Lifecycle) (e : string)
    (ops : list Operation) (o : ListenOutcome) :
  _server s = false →
  _httpServer s = false →
  (startServer (ListenThrows e) s).1.2 = RejectedWith e
  ∧ startServer o (operate_all ops (startServer (ListenThrows e) s).1.1) =
      (operate_all ops (startServer (ListenThrows e) s).1.1,
       RejectedWith "Server is already running", [])
  ∧ ∀ c, stopServer c (operate_all ops (startServer (ListenThrows e) s).1.1) =
           (operate_all ops (startServer (ListenThrows e) s).1.1, Fulfilled).
Proof.
  intros Hs Hh.
  assert (_server (startServer (ListenThrows e) s).1.1 = true
          ∧ _httpServer (startServer (ListenThrows e) s).1.1 = false) as [Hs1 Hh1].
  { unfold startServer. rewrite Hs. simpl. done. }
  destruct (operate_all_stuck ops _ Hs1 Hh1) as [Hs2 Hh2].
  split; [unfold startServer; by rewrite Hs|].
  split; [unfold startServer at 1; by rewrite Hs2|].
  intros c. unfold stopServer at 1. by rewrite Hh2.
Qed.

Lemma failed_listen_blocks_every_restart_witness :
  _server (constructed None) = false
  ∧ _httpServer (constructed None) = false
  ∧ startServer Listening
      (operate_all [OpStopServer Closed; OpClose Closed]
         (startServer (ListenThrows "bad port") (constructed None)).1.1) =
      (operate_all [OpStopServer Closed; OpClose Closed]
         (startServer (ListenThrows "bad port") (constructed None)).1.1,
       RejectedWith "Server is already running", []).
Proof.
  split; [reflexivity|]. split; [reflexivity|].
  apply (failed_listen_blocks_every_restart (constructed None) "bad port"
           [OpStopServer Closed; OpClose Closed] Listening); reflexivity.
Defined.

(** [close] clears the registry and calls [onclose] only when stopping the
    server did not fail.  If the server's [close] reports an error, [close]
    is rejected with it, the pending batches stay registered and [onclose]
    is not called.  After a fulfilled [close] nothing is registered, the
    HTTP server is not set, [_started] is as before, and every later call of
    [send] changes nothing. *)
Theorem close_clears_only_after_stop (o : CloseOutcome) (s : Lifecycle) :
  (∀ e, _httpServer s = true → o = CloseFails e →
        close o s = (s, RejectedWith e, []))
  ∧ (_httpServer s = false ∨ o = Closed →
       (close o s).1.2 = Fulfilled
       ∧ (close o s).2 = [OnCloseCall]
       ∧ _pendingRequests (transport (close o s).1.1) = []
       ∧ onmessage (transport (close o s).1.1) = onmessage (transport s)
       ∧ _httpServer (close o s).1.1 = false
       ∧ _started (close o s).1.1 = _started s
       ∧ ∀ m, send m (transport (close o s).1.1) =
                (transport (close o s).1.1, [SendCall m])).
Proof.
  split.
  - intros e Hh ->. unfold close, stopServer. by rewrite Hh.
  - intros Hcase.
    assert (∃ s1, stopServer o s = (s1, Fulfilled)
                  ∧ transport s1 = transport s ∧ _started s1 = _started s
                  ∧ _httpServer s1 = false) as (s1 & Hstop & Ht & Hst & Hh).
    { unfold stopServer. destruct (_httpServer s) eqn:Hh.
      - destruct Hcase as [?| ->]; [done|]. eexists. by split.
      - eexists. by split. }
    unfold close. rewrite Hstop. simpl. rewrite Ht.
    repeat split; try done.
    intros m. destruct (isResponse m) eqn:Hr.
    + by rewrite send_response.
    + by rewrite send_not_response.
Qed.

(** ** [getParams] *)

Lemma getParams_foldl argv : getParams argv = foldl add_flag ∅ (drop 2 argv).
Proof. done. Qed.


Lemma split_free sep s : Forall (fun w => free_of sep w = true) (split sep s).
Proof.
  induction s as [|c s IH]; simpl; [by repeat constructor|].
  case_bool_decide as Hc; [by constructor|].
  destruct (split sep s) as [|w ws]; [by repeat constructor; simpl;
    rewrite bool_decide_false|].
  apply Forall_cons in IH as [Hw Hws]. constructor; [|done].
  simpl. by rewrite bool_decide_false.
Qed.

Lemma split_free_id sep s : free_of sep s = true → split sep s = [s].
Proof.
  induction s as [|c s IH]; simpl; [done|].
  rewrite andb_true_iff, negb_true_iff, bool_decide_eq_false. intros [Hc Hs].
  rewrite bool_decide_false by done. by rewrite IH.
Qed.

Lemma split_app_sep sep k r :
  free_of sep k = true → split sep (k +:+ String sep r) = k :: split sep r.
Proof.
  induction k as [|c k IH]; simpl.
  - intros _. by rewrite bool_decide_true.
  - rewrite andb_true_iff, negb_true_iff, bool_decide_eq_false. intros [Hc Hk].
    rewrite bool_decide_false by done. by rewrite IH.
Qed.

Lemma add_flag_values args arg :
  map_Forall (fun k v => free_of "=" k = true
                         ∧ ∀ x, v = Some x → free_of "=" x = true) args →
  map_Forall (fun k v => free_of "=" k = true
                         ∧ ∀ x, v = Some x → free_of "=" x = true) (add_flag args arg).
Proof.
  intros Hall. unfold add_flag. destruct (String.prefix "--" arg); [|done].
  pose proof (split_free "="%char (slice2 arg)) as Hfree.
  destruct (split "="%char (slice2 arg)) as [|key rest]; [done|].
  apply Forall_cons in Hfree as [Hkey Hrest].
  case_bool_decide; [done|].
  apply map_Forall_insert_2; [|done]. split; [done|].
  intros x Hx. destruct rest as [|v rest]; [done|]. injection Hx as ->.
  by apply Forall_cons in Hrest as [Hv _].
Qed.

(** Neither the keys nor the values that [getParams] stores contain the
    character [=]: a value is cut at its first [=], so [--token=a=b] stores
    [a] under [token]. *)
Theorem getParams_cuts_values_at_equals (argv : list string) (key : string)
    (value : option string) :
  getParams argv !! key = Some value →
  free_of "=" key = true ∧ ∀ x, value = Some x → free_of "=" x = true.
Proof.
  rewrite getParams_foldl.
  assert (∀ l (args : JSObject),
            map_Forall (fun k v => free_of "=" k = true
                          ∧ ∀ x, v = Some x → free_of "=" x = true) args →
            map_Forall (fun k v => free_of "=" k = true
                          ∧ ∀ x, v = Some x → free_of "=" x = true)
              (foldl add_flag args l)) as Hfold.
  { induction l as [|a l IH]; intros args Hall; [done|].
    simpl. apply IH. by apply add_flag_values. }
  intros Hget. apply (Hfold (drop 2 argv) ∅ (map_Forall_empty _) key value Hget).
Qed.

Lemma getParams_cuts_values_at_equals_witness :
  getParams ["node"; "server.js"; "--token=a=b"] !! "token" = Some (Some "a")
  ∧ free_of "=" "token" = true
  ∧ ∀ x, Some "a" = Some x → free_of "=" x = true.
Proof.
  split; [reflexivity|].
  apply (getParams_cuts_values_at_equals ["node"; "server.js"; "--token=a=b"]
           "token" (Some "a")).
  reflexivity.
Defined.

Lemma getParams_snoc argv arg :
  (2 ≤ length argv)%nat → getParams (argv ++ [arg]) = add_flag (getParams argv) arg.
Proof.
  intros Hlen. rewrite !getParams_foldl, drop_app_le by done.
  by rewrite foldl_app.
Qed.

(** A flag [--key=value] given last on the command line, with a key other
    than [__proto__], a non-empty value and no [=] inside key or value, is
    what both copies of [getParamValue] return for [key], whatever came
    before it on the command line and whatever the environment holds. *)
Theorem last_flag_wins_over_environment (argv : list string) (env : Env)
    (key value : string) :
  (2 ≤ length argv)%nat →
  key ≠ "__proto__" →
  free_of "=" key = true →
  free_of "=" value = true →
  value ≠ "" →
  Part000.getParamValue (argv ++ ["--" +:+ key +:+ "=" +:+ value]) env key = value
  ∧ Part001.getParamValue (argv ++ ["--" +:+ key +:+ "=" +:+ value]) env key = value.
Proof.
  intros Hlen Hproto Hk Hv Hne.
  assert (getParams (argv ++ ["--" +:+ key +:+ "=" +:+ value]) =
          <[key := Some value]> (getParams argv)) as Hargs.
  { rewrite getParams_snoc by done.
    change ("--" +:+ key +:+ "=" +:+ value)
      with (String "-" (String "-" (key +:+ String "=" value))).
    unfold add_flag. cbn [String.prefix slice2].
    destruct (ascii_dec "-" "-") as [_|Hne']; [|done].
    destruct key; rewrite split_app_sep, split_free_id by done;
      by rewrite bool_decide_false. }
  assert (lookup_described (<[key := Some value]> (getParams argv)) env key = value)
    as Hres.
  { unfold lookup_described, prop. rewrite lookup_insert_eq. simpl.
    by rewrite bool_decide_false. }
  split.
  - rewrite part000_lookup_with_arguments; rewrite Hargs; [done|].
    apply insert_non_empty.
  - by rewrite part001_lookup, Hargs.
Qed.

Lemma last_flag_wins_over_environment_witness :
  (2 ≤ length ["node"; "server.js"; "--api_key=old"])%nat
  ∧ "api_key" ≠ "__proto__"
  ∧ "new" ≠ ""
  ∧ Part000.getParamValue
      (["node"; "server.js"; "--api_key=old"] ++ ["--" +:+ "api_key" +:+ "=" +:+ "new"])
      {["api_key" := "from-env"]} "api_key" = "new".
Proof.
  split; [simpl; lia|]. split; [discriminate|]. split; [discriminate|].
  apply (last_flag_wins_over_environment ["node"; "server.js"; "--api_key=old"]
           {["api_key" := "from-env"]} "api_key" "new");
    [simpl; lia|discriminate|reflexivity|reflexivity|discriminate].
Defined.


Lemma add_flag_other args arg : startsWith_dashes arg = false → add_flag args arg = args.
Proof. unfold startsWith_dashes, add_flag. by intros ->. Qed.









(** [getParams] reads only the arguments that start with [--], in their
    order: the first two entries of [argv] and the positional arguments play
    no part, so two command lines with the same flags give the same result
    of [getParamValue] in either copy. *)
Theorem getParams_reads_only_flags (argv argv' : list string) (env : Env)
    (name : string) :
  filter (fun a => startsWith_dashes a = true) (drop 2 argv) =
    filter (fun a => startsWith_dashes a = true) (drop 2 argv') →
  getParams argv = getParams argv'
  ∧ Part000.getParamValue argv env name = Part000.getParamValue argv' env name
  ∧ Part001.getParamValue argv env name = Part001.getParamValue argv' env name.
Proof.
  intros Hflags.
  assert (∀ l args, foldl add_flag args l =
            foldl add_flag args (filter (fun a => startsWith_dashes a = true) l))
    as Hfilter.
  { induction l as [|a l IH]; intros args; [done|].
    rewrite filter_cons. destruct (startsWith_dashes a) eqn:Ha.
    - rewrite decide_True by done. simpl. apply IH.
    - rewrite decide_False by done. simpl. rewrite add_flag_other by done. apply IH. }
  assert (getParams argv = getParams argv') as Heq.
  { rewrite !getParams_foldl, (Hfilter (drop 2 argv)), (Hfilter (drop 2 argv')).
    by rewrite Hflags. }
  split; [done|]. unfold Part000.getParamValue, Part001.getParamValue.
  by rewrite Heq.
Qed.

Lemma getParams_reads_only_flags_witness :
  filter (fun a => startsWith_dashes a = true)
    (drop 2 ["node"; "server.js"; "input.txt"; "--port=1"; "-v"]) =
    filter (fun a => startsWith_dashes a = true)
      (drop 2 ["bun"; "main.ts"; "--port=1"])
  ∧ getParams ["node"; "server.js"; "input.txt"; "--port=1"; "-v"] =
      getParams ["bun"; "main.ts"; "--port=1"].
Proof.
  split; [reflexivity|].
  apply (getParams_reads_only_flags
           ["node"; "server.js"; "input.txt"; "--port=1"; "-v"]
           ["bun"; "main.ts"; "--port=1"] ∅ "port").
  reflexivity.
Defined.



(** ** [getAuthValue] *)

Lemma json_or_assoc a b c : json_or (json_or a b) c = json_or a (json_or b c).
Proof.
  unfold json_or. destruct a as [v|]; [|done].
  destruct (JSON_truthy v) eqn:Hv; [|done]. by rewrite Hv.
Qed.

Lemma auth_chain_first_truthy auth env name :
  auth_chain auth env name =
    first_truthy
      [JSON_get auth name; JSON_get auth (toUpperCase name);
       JSON_get auth (toLowerCase name);
       env_value env name; env_value env (toUpperCase name);
       env_value env (toLowerCase name)].
Proof.
  unfold auth_chain. rewrite !json_or_assoc.
  assert (∀ a b, default (JString "") (json_or a b) =
                 match a with
                 | Some v => if JSON_truthy v then v else default (JString "") b
                 | None => default (JString "") b
                 end) as Hstep.
  { intros [v|] b; simpl; [|done]. by destruct (JSON_truthy v). }
  rewrite !Hstep. simpl. done.
Qed.

Lemma first_truthy_truthy l :
  JSON_truthy (first_truthy l) = true ∨ first_truthy l = JString "".
Proof.
  induction l as [|[v|] l IH]; simpl; [by right| |done].
  destruct (JSON_truthy v) eqn:Hv; [by left|done].
Qed.


(** Neither copy of [getAuthValue] returns a falsy value other than the
    empty string: the result is never [null], [false], [0] or [undefined]. *)
Theorem getAuthValue_is_truthy_or_empty (auth : option JSON) (env : Env)
    (name : string) :
  (JSON_truthy (Part000_auth.getAuthValue auth env name) = true
   ∨ Part000_auth.getAuthValue auth env name = JString "")
  ∧ (JSON_truthy (Part001_auth.getAuthValue auth env name) = true
     ∨ Part001_auth.getAuthValue auth env name = JString "").
Proof.
  unfold Part000_auth.getAuthValue, Part001_auth.getAuthValue.
  destruct (auth_unusable auth); rewrite ?auth_chain_first_truthy;
    (split; [|apply first_truthy_truthy]); [by right|apply first_truthy_truthy].
Qed.

(** A truthy field of an [auth] object under the exact name is what both
    copies of [getAuthValue] return, as it is and whatever its type,
    whatever the environment holds. *)
Theorem auth_field_wins_over_environment (fields : list (string * JSON))
    (env : Env) (name : string) (v : JSON) :
  Map_get name fields = Some v →
  JSON_truthy v = true →
  Part000_auth.getAuthValue (Some (JObject fields)) env name = v
  ∧ Part001_auth.getAuthValue (Some (JObject fields)) env name = v.
Proof.
  intros Hget Hv.
  assert (auth_unusable (Some (JObject fields)) = false) as Hu.
  { simpl. rewrite bool_decide_false; [done|]. by destruct fields. }
  unfold Part000_auth.getAuthValue, Part001_auth.getAuthValue. rewrite Hu. simpl.
  rewrite auth_chain_first_truthy. simpl. by rewrite Hget, Hv.
Qed.

Lemma auth_field_wins_over_environment_witness :
  Map_get "token" [("token", JNumber 42)] = Some (JNumber 42)
  ∧ JSON_truthy (JNumber 42) = true
  ∧ Part000_auth.getAuthValue (Some (JObject [("token", JNumber 42)]))
      {["token" := "from-env"]} "token" = JNumber 42.
Proof.
  split; [reflexivity|]. split; [reflexivity|].
  apply (auth_field_wins_over_environment [("token", JNumber 42)]
           {["token" := "from-env"]} "token" (JNumber 42)); reflexivity.
Defined.
